(** * MRtrix streamline propagation (iFOD2) and the warp bounds check

    A shallow embedding of [src/dwi/tractography/iFOD2.h] (class [iFOD2]:
    [init], [next], [rand_path_prob], [get_path]) and of
    [cmd/warpcorrect.cpp] (class [BoundsCheck]), with the properties of the
    specification stated and proved over it.

    [value_type] is a floating-point type.  The code is written once over an
    interface of scalar operations ([Scalar], [FloatLike]) and instantiated
    with IEEE binary32 numbers ([Floats.SpecFloat], precision 24, exponent
    bound 128), which is what the concrete evaluations below run on; the arc
    generator is instantiated with the real numbers as well, to state what
    its formulas mean geometrically. *)

From Stdlib Require Import ZArith List Bool Lia.
From Stdlib Require Import Floats.SpecFloat.
From Stdlib Require Import Reals Lra.
Import ListNotations.

Set Implicit Arguments.

(** ** Scalars *)

(** The arithmetic [value_type] offers: the four operations, [sqrt], the
    comparisons [<], [<=], [==] and the conversion of an integer. *)
Class Scalar (T : Type) : Type := {
  s_add : T -> T -> T;
  s_sub : T -> T -> T;
  s_mul : T -> T -> T;
  s_div : T -> T -> T;
  s_sqrt : T -> T;
  s_ltb : T -> T -> bool;
  s_leb : T -> T -> bool;
  s_eqb : T -> T -> bool;
  s_of_Z : Z -> T
}.

(** What a floating-point [value_type] adds: the NaN value and the
    classification functions [isnan] and [finite]. *)
Class FloatLike (T : Type) `{Scalar T} : Type := {
  s_nan : T;
  s_isnan : T -> bool;
  s_finite : T -> bool;
  (** ordered comparisons with a NaN operand are false, and nothing is
      less than itself *)
  s_ltb_nan_l : forall x y, s_isnan x = true -> s_ltb x y = false;
  s_ltb_nan_r : forall x y, s_isnan y = true -> s_ltb x y = false;
  s_ltb_irrefl : forall x, s_ltb x x = false;
  s_isnan_nan : s_isnan s_nan = true;
  s_finite_not_nan : forall x, s_finite x = true -> s_isnan x = false
}.

Arguments FloatLike T {_}.

Declare Scope scalar_scope.
Delimit Scope scalar_scope with sc.
Infix "+" := s_add : scalar_scope.
Infix "-" := s_sub : scalar_scope.
Infix "*" := s_mul : scalar_scope.
Infix "/" := s_div : scalar_scope.
Infix "<?" := s_ltb : scalar_scope.
Infix "<=?" := s_leb : scalar_scope.

Section ScalarDerived.
Context {T : Type} `{Scalar T}.

(** The literals [0.0], [1.0] and [1.5]; each is exact in binary floating
    point (1.5 = 3/2). *)
Definition s_zero : T := s_of_Z 0.
Definition s_one : T := s_of_Z 1.
Definition s_1_5 : T := s_div (s_of_Z 3) (s_of_Z 2).

(** [std::min (a, b)] is [(b < a) ? b : a]. *)
Definition std_min (a b : T) : T := if s_ltb b a then b else a.

(** [if (x)] on a floating-point [x]: true unless [x == 0]. *)
Definition truthy (x : T) : bool := negb (s_eqb x s_zero).
End ScalarDerived.

(** ** [size_t] *)

Definition size_modulus : Z := 2 ^ 64.
Definition size_wrap (z : Z) : Z := z mod size_modulus.
Definition size_add (a b : Z) : Z := size_wrap (a + b).
Definition size_sub (a b : Z) : Z := size_wrap (a - b).

(** The values [0, 1, ..., n-1] taken by the counter of
    [for (size_t i = 0; i < n; ++i)]. *)
Definition range (n : Z) : list Z := map Z.of_nat (seq 0 (Z.to_nat n)).

(** ** Points *)

Section Points.
Context {T : Type} `{Scalar T}.
Local Open Scope scalar_scope.

(** Modelled from the spec: [Point<value_type>] ([point.h]) is not among
    the sources.  A point is three [value_type] components; the operations
    the code uses on it (sum, difference, product by a scalar, [dot],
    [norm2], [normalise]) are the component-wise ones, summed from left to
    right. *)
Record Point : Type := mkPoint { px : T; py : T; pz : T }.

Definition padd (a b : Point) : Point :=
  mkPoint (px a + px b) (py a + py b) (pz a + pz b).
Definition psub (a b : Point) : Point :=
  mkPoint (px a - px b) (py a - py b) (pz a - pz b).
Definition pscale (k : T) (a : Point) : Point :=
  mkPoint (k * px a) (k * py a) (k * pz a).
Definition dot (a b : Point) : T :=
  px a * px b + py a * py b + pz a * pz b.
Definition norm2 (a : Point) : T := dot a a.
Definition norm (a : Point) : T := s_sqrt (norm2 a).
Definition normalise (a : Point) : Point :=
  let n := norm a in mkPoint (px a / n) (py a / n) (pz a / n).
End Points.

Arguments Point T : clear implicits.

Infix ".+" := padd (at level 50, left associativity) : scalar_scope.
Infix ".-" := psub (at level 50, left associativity) : scalar_scope.
Infix "*:" := pscale (at level 40, left associativity) : scalar_scope.

(** ** The arc generator, [iFOD2::get_path] *)

Section Arc.
Context {T : Type} `{Scalar T}.
(** [Math::acos], [Math::sin], [Math::cos] *)
Variables (acos sin cos : T -> T).
Local Open Scope scalar_scope.

(** Lines 191-192: the dot product, bounded above by 1. *)
Definition cos_theta_of (end_dir dir : Point T) : T :=
  std_min (dot end_dir dir) s_one.

(** The sample stored by iteration [i] of the loop of the curved case,
    lines 201-205. *)
Definition curved_sample (num_samples : Z) (step_size : T) (pos dir curv : Point T)
    (theta : T) (i : Z) : Point T * Point T :=
  let R := step_size / theta in
  let a := (theta * s_of_Z (i + 1)) / s_of_Z num_samples in
  let cos_a := cos a in
  let sin_a := sin a in
  (pos .+ R *: (sin_a *: dir .+ (s_one - cos_a) *: curv),
   cos_a *: dir .+ sin_a *: curv).

(** The sample stored by iteration [i] of the loop of the straight case,
    lines 212-214. *)
Definition straight_sample (num_samples : Z) (step_size : T) (pos dir : Point T)
    (i : Z) : Point T * Point T :=
  let f := s_of_Z (i + 1) * (step_size / s_of_Z num_samples) in
  (pos .+ f *: dir, dir).

(** Lines 191-216, after [end_dir] has been drawn.  The result is the
    sequence of stores made through the two pointers [positions] and
    [tangents], in order: both are incremented after every store, so the
    [k]-th pair of the list is what is stored into [positions[k]] and
    [tangents[k]].  The arrays of the caller hold [num_samples] elements:
    a pair at index [num_samples] or beyond is a store past their end.
    The loop of the straight case runs for [i = 0, ..., num_samples]
    ([i <= S.num_samples]). *)
Definition arc (num_samples : Z) (step_size : T) (pos dir end_dir : Point T)
    : list (Point T * Point T) :=
  let cos_theta := cos_theta_of end_dir dir in
  let theta := acos cos_theta in
  if truthy theta then
    let curv := normalise (end_dir .- cos_theta *: dir) in
    let R := step_size / theta in
    map (curved_sample num_samples step_size pos dir curv theta)
        (range (size_sub num_samples 1))
    ++ [(pos .+ R *: (sin theta *: dir .+ (s_one - cos_theta) *: curv), end_dir)]
  else
    map (straight_sample num_samples step_size pos dir) (range (num_samples + 1)).
End Arc.

(** The stores of a path stay within arrays of [n] elements. *)
Definition stores_in_bounds {A : Type} (n : Z) (stores : list A) : Prop :=
  (Z.of_nat (length stores) <= n)%Z.

(** ** The tracking state and its environment *)

(** The order in which a compiler evaluates the three arguments of
    [dir.set (rng.normal(), rng.normal(), rng.normal())] (line 81), which
    C++ leaves unspecified: [XYZ] is from left to right, [ZYX] from right
    to left. *)
Inductive arg_order : Type := XYZ | XZY | YXZ | YZX | ZXY | ZYX.

(** The point [set] receives when the calls return [d1], [d2] and [d3] in
    that order in time. *)
Definition set_args {T : Type} (o : arg_order) (d1 d2 d3 : T) : Point T :=
  match o with
  | XYZ => mkPoint d1 d2 d3
  | XZY => mkPoint d1 d3 d2
  | YXZ => mkPoint d2 d1 d3
  | YZX => mkPoint d3 d1 d2
  | ZXY => mkPoint d2 d3 d1
  | ZYX => mkPoint d3 d2 d1
  end.

(** What the tracking code takes from the rest of the library, none of it
    among the sources: the image interpolator behind [get_data], the
    spherical-harmonic evaluators behind [FOD], the random number generator,
    [random_direction], the functions of [Math::] and the macro [MAX]; and
    what the language leaves to the compiler: the order of evaluation of
    the arguments of line 81, and what two arrays hold after a store past
    their end. *)
Record Env (T : Type) : Type := {
  Vals : Type;                       (* the coefficient vector [values] *)
  Rng : Type;                        (* the state of the generator [rng] *)
  (** [get_data (position)]: the flag returned and, when [values] is
      overwritten, its new contents *)
  get_data_at : Point T -> bool * option Vals;
  precomputer_value : Vals -> Point T -> T;
  SH_value : Vals -> Point T -> Z -> T;
  rng_uniform : Rng -> T * Rng;
  rng_normal : Rng -> T * Rng;
  random_direction : Point T -> T -> T -> Rng -> Point T * Rng;
  acos : T -> T;
  sin : T -> T;
  cos : T -> T;
  pow : T -> T -> T;
  MAX : T -> T -> T;
  args_order : arg_order;
  (** the contents of arrays of [n] pairs after a sequence of stores that
      ran past their end (undefined behaviour) *)
  overrun : Z -> list (Point T * Point T) -> list (Point T * Point T)
}.

Section Tracking.
Context {T : Type} `{FloatLike T}.
Variable E : Env T.
Local Open Scope scalar_scope.

(** [iFOD2::Shared] with the members of [SharedBase] the code reads. *)
Record Shared : Type := {
  step_size : T;
  max_angle : T;
  threshold : T;
  init_threshold : T;
  init_dir : Point T;
  lmax : Z;
  num_samples : Z;
  max_trials : Z;
  sin_max_angle : T;
  prob_threshold : T;
  precomputer : bool               (* whether the table was initialised *)
}.

(** The parameters [SharedBase] has set when the constructor of
    [iFOD2::Shared] runs, and the entries of the property set the
    constructor looks up; an entry may be absent. *)
Record SharedBase : Type := {
  base_step_size : T;
  base_max_angle : T;
  base_threshold : T;
  base_init_threshold : T;
  base_init_dir : Point T
}.
Record Properties : Type := {
  lmax_entry : option Z;
  samples_per_step : option Z;
  max_trials_entry : option Z;
  sh_precomputed : option bool
}.

(** Modelled from the spec: [Properties::set (variable, name)]
    ([properties.h]) is not among the sources.  The variable takes the value
    of the entry when the property set has one and keeps its own, the
    default, otherwise. *)
Definition properties_set {A : Type} (variable : A) (entry : option A) : A :=
  match entry with Some v => v | None => variable end.

(** The constructor of [iFOD2::Shared], lines 42-57; [lmax0] is
    [Math::SH::LforN (source.dim (3))]. *)
Definition Shared_new (base : SharedBase) (lmax0 : Z) (properties : Properties) : Shared :=
  let lmax := properties_set lmax0 (lmax_entry properties) in
  let num_samples := properties_set 1%Z (samples_per_step properties) in
  let max_trials := properties_set 100%Z (max_trials_entry properties) in
  let precomputed := properties_set true (sh_precomputed properties) in
  {| step_size := base_step_size base;
     max_angle := base_max_angle base;
     threshold := base_threshold base;
     init_threshold := base_init_threshold base;
     init_dir := base_init_dir base;
     lmax := lmax;
     num_samples := num_samples;
     max_trials := max_trials;
     sin_max_angle := sin E (base_max_angle base);
     prob_threshold := pow E (base_threshold base) (s_of_Z num_samples);
     precomputer := precomputed |}.

(** The members of [MethodBase] and [iFOD2], and three counters that are
    not in the code: [path_evals] counts the calls of [rand_path_prob],
    [fod_evals] the evaluations of the series by [FOD (direction)] and
    [data_fetches] the calls of [get_data]. *)
Record State : Type := {
  pos : Point T;
  dir : Point T;
  values : Vals E;
  rng : Rng E;
  prev_prob_val : T;
  mean_sample_num : Z;
  num_sample_runs : Z;
  path_evals : nat;
  fod_evals : nat;
  data_fetches : nat
}.

Definition with_pos (p : Point T) (s : State) : State :=
  {| pos := p; dir := dir s; values := values s; rng := rng s;
     prev_prob_val := prev_prob_val s; mean_sample_num := mean_sample_num s;
     num_sample_runs := num_sample_runs s; path_evals := path_evals s;
     fod_evals := fod_evals s; data_fetches := data_fetches s |}.
Definition with_dir (d : Point T) (s : State) : State :=
  {| pos := pos s; dir := d; values := values s; rng := rng s;
     prev_prob_val := prev_prob_val s; mean_sample_num := mean_sample_num s;
     num_sample_runs := num_sample_runs s; path_evals := path_evals s;
     fod_evals := fod_evals s; data_fetches := data_fetches s |}.
Definition with_values (v : Vals E) (s : State) : State :=
  {| pos := pos s; dir := dir s; values := v; rng := rng s;
     prev_prob_val := prev_prob_val s; mean_sample_num := mean_sample_num s;
     num_sample_runs := num_sample_runs s; path_evals := path_evals s;
     fod_evals := fod_evals s; data_fetches := data_fetches s |}.
Definition with_rng (r : Rng E) (s : State) : State :=
  {| pos := pos s; dir := dir s; values := values s; rng := r;
     prev_prob_val := prev_prob_val s; mean_sample_num := mean_sample_num s;
     num_sample_runs := num_sample_runs s; path_evals := path_evals s;
     fod_evals := fod_evals s; data_fetches := data_fetches s |}.
Definition with_prev_prob_val (v : T) (s : State) : State :=
  {| pos := pos s; dir := dir s; values := values s; rng := rng s;
     prev_prob_val := v; mean_sample_num := mean_sample_num s;
     num_sample_runs := num_sample_runs s; path_evals := path_evals s;
     fod_evals := fod_evals s; data_fetches := data_fetches s |}.
Definition with_mean_sample_num (n : Z) (s : State) : State :=
  {| pos := pos s; dir := dir s; values := values s; rng := rng s;
     prev_prob_val := prev_prob_val s; mean_sample_num := n;
     num_sample_runs := num_sample_runs s; path_evals := path_evals s;
     fod_evals := fod_evals s; data_fetches := data_fetches s |}.
Definition with_num_sample_runs (n : Z) (s : State) : State :=
  {| pos := pos s; dir := dir s; values := values s; rng := rng s;
     prev_prob_val := prev_prob_val s; mean_sample_num := mean_sample_num s;
     num_sample_runs := n; path_evals := path_evals s;
     fod_evals := fod_evals s; data_fetches := data_fetches s |}.
Definition tick_path_evals (s : State) : State :=
  {| pos := pos s; dir := dir s; values := values s; rng := rng s;
     prev_prob_val := prev_prob_val s; mean_sample_num := mean_sample_num s;
     num_sample_runs := num_sample_runs s; path_evals := S (path_evals s);
     fod_evals := fod_evals s; data_fetches := data_fetches s |}.
Definition tick_fod_evals (s : State) : State :=
  {| pos := pos s; dir := dir s; values := values s; rng := rng s;
     prev_prob_val := prev_prob_val s; mean_sample_num := mean_sample_num s;
     num_sample_runs := num_sample_runs s; path_evals := path_evals s;
     fod_evals := S (fod_evals s); data_fetches := data_fetches s |}.
Definition tick_data_fetches (s : State) : State :=
  {| pos := pos s; dir := dir s; values := values s; rng := rng s;
     prev_prob_val := prev_prob_val s; mean_sample_num := mean_sample_num s;
     num_sample_runs := num_sample_runs s; path_evals := path_evals s;
     fod_evals := fod_evals s; data_fetches := S (data_fetches s) |}.

(** *** The state monad of the member functions *)

Definition M (A : Type) : Type := State -> A * State.
Definition ret {A : Type} (a : A) : M A := fun s => (a, s).
Definition bind {A B : Type} (m : M A) (k : A -> M B) : M B :=
  fun s => let (a, s') := m s in k a s'.
Definition gets {A : Type} (f : State -> A) : M A := fun s => (f s, s).
Definition modify (f : State -> State) : M unit := fun s => (tt, f s).
End Tracking.

Arguments Shared T : clear implicits.
Arguments SharedBase T : clear implicits.

Declare Scope track_scope.
Delimit Scope track_scope with track.
Notation "x <- c1 ;; c2" := (bind c1 (fun x => c2))
  (at level 61, c1 at next level, right associativity) : track_scope.
Notation "' pat <- c1 ;; c2" := (bind c1 (fun x => match x with pat => c2 end))
  (at level 61, pat pattern, c1 at next level, right associativity) : track_scope.
Notation "c1 ;; c2" := (bind c1 (fun _ => c2))
  (at level 61, right associativity) : track_scope.

(** ** The member functions of [iFOD2] *)

Section Methods.
Context {T : Type} `{FloatLike T}.
Variable E : Env T.
Variable Sh : Shared T.
Local Open Scope scalar_scope.
Local Open Scope track_scope.

Local Abbreviation State := (State E).
Local Abbreviation M := (M E).

(** Modelled from the spec: the default constructor [Point ()] and
    [Point::operator!] ([point.h]) are not among the sources.  A
    default-constructed point is invalid, its three components NaN, and
    [!p] tells whether [p] is invalid; the spec knows the initial direction
    as optional. *)
Definition Point_invalid : Point T := mkPoint s_nan s_nan s_nan.
Definition point_not (p : Point T) : bool :=
  s_isnan (px p) || s_isnan (py p) || s_isnan (pz p).

(** [MethodBase::get_data (position)] *)
Definition get_data (position : Point T) : M bool :=
  modify (@tick_data_fetches _ E) ;;
  fun s =>
    let (ok, upd) := get_data_at E position in
    (ok, match upd with Some v => with_values v s | None => s end).

(** [MethodBase::get_data ()], the data at the current position *)
Definition get_data_here : M bool :=
  position <- gets (@pos _ E) ;; get_data position.

(** [FOD (direction)], lines 151-157 *)
Definition FOD (direction : Point T) : M T :=
  modify (@tick_fod_evals _ E) ;;
  v <- gets (@values _ E) ;;
  ret (if precomputer Sh
       then precomputer_value E v direction
       else SH_value E v direction (lmax Sh)).

(** [FOD (position, direction)], lines 159-164 *)
Definition FOD_at (position direction : Point T) : M T :=
  ok <- get_data position ;;
  if negb ok then ret s_nan else FOD direction.

(** [rand_dir], line 219 *)
Definition rand_dir (d : Point T) : M (Point T) :=
  fun s =>
    let (e, r) := random_direction E d (max_angle Sh) (sin_max_angle Sh) (rng s) in
    (e, with_rng r s).

(** [get_path], lines 188-217 *)
Definition get_path : M (list (Point T * Point T)) :=
  d <- gets (@dir _ E) ;;
  end_dir <- rand_dir d ;;
  p <- gets (@pos _ E) ;;
  ret (arc (acos E) (sin E) (cos E) (num_samples Sh) (step_size Sh) p d end_dir).

(** The direction [get_path] draws in state [s] (line 190) and the angle it
    computes from it (lines 191-193). *)
Definition end_dir_of (s : State) : Point T := fst (rand_dir (dir s) s).
Definition theta_of (s : State) : T :=
  acos E (cos_theta_of (end_dir_of s) (dir s)).

(** Element [i] of the arrays [positions] and [tangents] after the stores
    of [get_path]; an element never stored is a default-constructed
    point. *)
Definition sample_at (stores : list (Point T * Point T)) (i : Z) : Point T * Point T :=
  nth (Z.to_nat i) stores (Point_invalid, Point_invalid).

(** What the arrays [positions] and [tangents] of line 168, of
    [num_samples] elements each, hold when [get_path] returns: the stores
    themselves when they all fall within the arrays.  When [get_path] has
    stored past their end, as the loop of line 211 does, the behaviour is
    undefined and the contents are those the environment gives. *)
Definition arrays_after (stores : list (Point T * Point T))
    : list (Point T * Point T) :=
  if (Z.of_nat (length stores) <=? num_samples Sh)%Z then stores
  else overrun E (num_samples Sh) stores.

(** The loop of lines 172-177 over the remaining indices [idx]: [None] when
    it leaves through [return (NAN)], the product otherwise. *)
Fixpoint prob_loop (stores : list (Point T * Point T)) (idx : list Z) (prob : T)
    : M (option T) :=
  match idx with
  | [] => ret (Some prob)
  | i :: idx' =>
      fod_amp <- FOD_at (fst (sample_at stores i)) (snd (sample_at stores i)) ;;
      if s_isnan fod_amp || (fod_amp <? threshold Sh)
      then ret None
      else prob_loop stores idx' (prob * fod_amp)
  end.

(** [rand_path_prob], lines 166-183.  [next_pos] and [next_dir] are
    references to variables of the caller: they come in with their current
    values and go out assigned or untouched.  The loop and the final
    assignments read the arrays, which hold the stores of [get_path] only
    when it stayed within them. *)
Definition rand_path_prob (next_pos next_dir : Point T)
    : M (T * Point T * Point T) :=
  modify (@tick_path_evals _ E) ;;
  stores <- get_path ;;
  let arrays := arrays_after stores in
  r <- prob_loop arrays (range (num_samples Sh)) s_one ;;
  match r with
  | None => ret (s_nan, next_pos, next_dir)
  | Some prob =>
      let last := sample_at arrays (size_sub (num_samples Sh) 1) in
      ret (prob, fst last, snd last)
  end.

(** *** [init], lines 75-104 *)

(** The loop of lines 80-90 with [k] iterations left; [true] when it
    leaves through [return (true)].  The three calls of [rng.normal ()] of
    line 81 are the arguments of one call of [set]: [d1], [d2] and [d3] are
    their results in the order in which they are made, and which of them
    becomes which component is the compiler's choice, [args_order]. *)
Fixpoint init_loop (k : nat) : M bool :=
  match k with
  | O => ret false
  | S k' =>
      d1 <- (fun s => let (v, r) := rng_normal E (rng s) in (v, with_rng r s)) ;;
      d2 <- (fun s => let (v, r) := rng_normal E (rng s) in (v, with_rng r s)) ;;
      d3 <- (fun s => let (v, r) := rng_normal E (rng s) in (v, with_rng r s)) ;;
      modify (with_dir (normalise (set_args (args_order E) d1 d2 d3))) ;;
      d <- gets (@dir _ E) ;;
      val <- FOD d ;;
      if negb (s_isnan val) then
        if init_threshold Sh <? val then
          modify (with_prev_prob_val (pow E val (s_of_Z (num_samples Sh)))) ;;
          ret true
        else init_loop k'
      else init_loop k'
  end.

Definition init : M bool :=
  ok <- get_data_here ;;
  if negb ok then ret false else
  if point_not (init_dir Sh) then
    init_loop (Z.to_nat (max_trials Sh))
  else
    modify (with_dir (init_dir Sh)) ;;
    d <- gets (@dir _ E) ;;
    val <- FOD d ;;
    if s_finite val then
      if init_threshold Sh <? val then
        modify (with_prev_prob_val (pow E val (s_of_Z (num_samples Sh)))) ;;
        ret true
      else ret false
    else ret false.

(** *** [next], lines 106-144 *)

(** The loop of lines 111-115 with [k] iterations left. *)
Fixpoint probe_loop (k : nat) (max_val_actual : T) (next_pos next_dir : Point T)
    : M (T * Point T * Point T) :=
  match k with
  | O => ret (max_val_actual, next_pos, next_dir)
  | S k' =>
      '(val, next_pos', next_dir') <- rand_path_prob next_pos next_dir ;;
      probe_loop k'
        (if max_val_actual <? val then val else max_val_actual)
        next_pos' next_dir'
  end.

(** Line 123 *)
Definition trial_budget (max_val_actual : T) : Z :=
  if prob_threshold Sh <? max_val_actual then 10000%Z else max_trials Sh.

(** Lines 133-138: what an accepted trial does to the state. *)
Definition accept (n : Z) (next_pos next_dir : Point T) : M unit :=
  modify (with_dir (normalise next_dir)) ;;
  modify (with_pos next_pos) ;;
  modify (fun s => with_mean_sample_num (size_add (mean_sample_num s) n) s) ;;
  modify (fun s => with_num_sample_runs (size_add (num_sample_runs s) 1) s).

(** The loop of lines 125-141 with [k] iterations left and the counter at
    [n]; [true] when it leaves through [return (true)]. *)
Fixpoint sample_loop (k : nat) (n : Z) (max_val : T) (next_pos next_dir : Point T)
    : M bool :=
  match k with
  | O => ret false
  | S k' =>
      '(val, next_pos', next_dir') <- rand_path_prob next_pos next_dir ;;
      if prob_threshold Sh <? val then
        u <- (fun s => let (v, r) := rng_uniform E (rng s) in (v, with_rng r s)) ;;
        if u <? val / max_val then
          accept n next_pos' next_dir' ;;
          ret true
        else sample_loop k' (n + 1)%Z max_val next_pos' next_dir'
      else sample_loop k' (n + 1)%Z max_val next_pos' next_dir'
  end.

(** Lines 108-115: the two local points, default-constructed, and the
    probe of 100 candidate paths. *)
Definition probe : M (T * Point T * Point T) :=
  probe_loop 100 s_zero Point_invalid Point_invalid.

Definition next : M bool :=
  '(max_val_actual, next_pos, next_dir) <- probe ;;
  prev <- gets (@prev_prob_val _ E) ;;
  let max_val := MAX E prev max_val_actual in
  modify (with_prev_prob_val max_val_actual) ;;
  if s_isnan max_val || (max_val <? prob_threshold Sh) then ret false else
  let max_val := max_val * s_1_5 in
  let nmax := trial_budget max_val_actual in
  sample_loop (Z.to_nat nmax) 0 max_val next_pos next_dir.
End Methods.

(** ** IEEE binary32 as [value_type] *)

Module F32.

Definition prec : Z := 24.
Definition emax : Z := 128.

Definition of_Z (z : Z) : spec_float := binary_normalize prec emax z 0 false.

(** [m * 2^e], rounded to nearest *)
Definition of_scaled (m e : Z) : spec_float := binary_normalize prec emax m e false.

Definition is_nan (x : spec_float) : bool :=
  match x with S754_nan => true | _ => false end.

Definition is_finite (x : spec_float) : bool :=
  match x with S754_zero _ | S754_finite _ _ _ => true | _ => false end.

#[export] Instance scalar : Scalar spec_float := {
  s_add := SFadd prec emax;
  s_sub := SFsub prec emax;
  s_mul := SFmul prec emax;
  s_div := SFdiv prec emax;
  s_sqrt := SFsqrt prec emax;
  s_ltb := SFltb;
  s_leb := SFleb;
  s_eqb := SFeqb;
  s_of_Z := of_Z
}.

Lemma ltb_nan_l (x y : spec_float) : is_nan x = true -> SFltb x y = false.
Proof. destruct x; simpl; try discriminate. reflexivity. Qed.

Lemma ltb_nan_r (x y : spec_float) : is_nan y = true -> SFltb x y = false.
Proof. destruct y; simpl; try discriminate. destruct x; reflexivity. Qed.

Lemma ltb_irrefl (x : spec_float) : SFltb x x = false.
Proof.
  destruct x as [[|]|[|]| |[|] m e]; try reflexivity;
    unfold SFltb, SFcompare; rewrite Z.compare_refl, Pos.compare_cont_refl;
    reflexivity.
Qed.

Lemma finite_not_nan (x : spec_float) : is_finite x = true -> is_nan x = false.
Proof. destruct x; simpl; try discriminate; reflexivity. Qed.

#[export] Instance floatlike : FloatLike spec_float := {
  s_nan := S754_nan;
  s_isnan := is_nan;
  s_finite := is_finite;
  s_ltb_nan_l := ltb_nan_l;
  s_ltb_nan_r := ltb_nan_r;
  s_ltb_irrefl := ltb_irrefl;
  s_isnan_nan := eq_refl;
  s_finite_not_nan := finite_not_nan
}.

End F32.

(** ** What the properties speak of *)

Section Observations.
Context {T : Type} `{FloatLike T}.
Variable E : Env T.
Variable Sh : Shared T.
Local Open Scope scalar_scope.

(** The amplitude [FOD (position, direction)] returns for a sample when
    [values] holds [vals], and what [values] holds afterwards. *)
Definition amplitude_of (vals : Vals E) (sample : Point T * Point T) : T * Vals E :=
  let (ok, upd) := get_data_at E (fst sample) in
  let vals' := match upd with Some v => v | None => vals end in
  (if ok
   then if precomputer Sh
        then precomputer_value E vals' (snd sample)
        else SH_value E vals' (snd sample) (lmax Sh)
   else s_nan,
   vals').

(** The amplitudes of all the samples of a path, in order. *)
Fixpoint path_amps (vals : Vals E) (samples : list (Point T * Point T)) : list T :=
  match samples with
  | [] => []
  | s :: rest =>
      let (a, vals') := amplitude_of vals s in a :: path_amps vals' rest
  end.

(** A sample is rejected when its amplitude is NaN or below the amplitude
    threshold (line 174). *)
Definition rejected (a : T) : bool := s_isnan a || (a <? threshold Sh).

(** What the tracking owns besides the generator, the coefficient buffer
    and the counters of the model. *)
Definition same_track (s s' : State E) : Prop :=
  pos s' = pos s /\ dir s' = dir s /\ prev_prob_val s' = prev_prob_val s
  /\ mean_sample_num s' = mean_sample_num s
  /\ num_sample_runs s' = num_sample_runs s.

(** The maximum the probe finds. *)
Definition max_val_actual_of (st : State E) : T := fst (fst (fst (probe Sh st))).

(** The proposed position and direction the probe leaves behind, and the
    state after line 117. *)
Definition probe_pos (st : State E) : Point T := snd (fst (fst (probe Sh st))).
Definition probe_dir (st : State E) : Point T := snd (fst (probe Sh st)).
Definition after_probe (st : State E) : State E :=
  with_prev_prob_val (max_val_actual_of st) (snd (probe Sh st)).

(** The test of line 119, on the maximum of line 116. *)
Definition fails_check (st : State E) : bool :=
  s_isnan (MAX E (prev_prob_val st) (max_val_actual_of st))
  || (MAX E (prev_prob_val st) (max_val_actual_of st) <? prob_threshold Sh).

(** The amplitude of the field at the seed position along the configured
    initial direction: NaN where the position has no data. *)
Definition seed_amplitude (st : State E) : T :=
  fst (amplitude_of (values st) (pos st, init_dir Sh)).

End Observations.

(** ** The warp bounds check, [BoundsCheck] of [cmd/warpcorrect.cpp] *)

Section Warp.
Context {T : Type} `{FloatLike T}.
(** [Eigen::NumTraits<value_type>::dummy_precision ()], the default of the
    second argument of [isMuchSmallerThan], and [x.cwiseAbs2 ().sum ()], the
    sum of the squares of the three components in the order Eigen's
    reduction adds them. *)
Variable dummy_precision : T.
Variable cwiseAbs2_sum : Point T -> T.
Local Open Scope scalar_scope.

(** Eigen's [x.isMuchSmallerThan (y, prec)] for a vector [x] and a scalar
    [y]: [x.cwiseAbs2 ().sum () <= abs2 (prec * y)]. *)
Definition isMuchSmallerThan (x : Point T) (y : T) : bool :=
  cwiseAbs2_sum x <=? (dummy_precision * y) * (dummy_precision * y).

(** Eigen's [x.hasNaN ()] *)
Definition hasNaN (x : Point T) : bool :=
  s_isnan (px x) || s_isnan (py x) || s_isnan (pz x).

(** The members of [BoundsCheck]; [counter] is a reference to the total of
    the caller, touched by the destructor only. *)
Record BoundsCheck : Type := {
  precision : T;
  vec : Point T;
  count : Z;
  val : Point T
}.

(** The constructor, lines 55-59 *)
Definition BoundsCheck_new (tolerance : T) (marker : Point T) (old_val : Point T)
    : BoundsCheck :=
  {| precision := tolerance; vec := marker; count := 0; val := old_val |}.

(** The destructor, lines 73-75: the total of the caller afterwards. *)
Definition BoundsCheck_delete (b : BoundsCheck) (counter : Z) : Z :=
  size_add counter (count b).

(** The values of a voxel along axis 3 as a 3-vector, line 63; the images
    have three volumes ([check_warp]). *)
Definition vector_of_row (row : list T) : Point T :=
  mkPoint (nth 0 row s_nan) (nth 1 row s_nan) (nth 2 row s_nan).

(** The condition of line 64 *)
Definition out_of_bounds (b : BoundsCheck) (v : Point T) : bool :=
  isMuchSmallerThan (vec b .- v) (precision b) || (hasNaN (vec b) && hasNaN v).

(** [for (auto l = Loop (3) (out); l; ++l) out.value() = NaN;] *)
Definition fill_nan (out : list T) : list T := map (fun _ => s_nan) out.

(** [for (auto l = Loop (3) (in, out); l; ++l) out.value() = in.value();] *)
Fixpoint copy_row (inp out : list T) : list T :=
  match inp, out with
  | x :: inp', _ :: out' => x :: copy_row inp' out'
  | _, _ => out
  end.

(** [operator()], lines 61-72: the functor and the row of [out] after the
    call on the rows [inp] of [in] and [out] of [out]. *)
Definition BoundsCheck_call (b : BoundsCheck) (inp out : list T)
    : BoundsCheck * list T :=
  let b1 := {| precision := precision b; vec := vec b; count := count b;
               val := vector_of_row inp |} in
  if out_of_bounds b1 (val b1) then
    ({| precision := precision b1; vec := vec b1;
        count := size_add (count b1) 1; val := val b1 |},
     fill_nan out)
  else (b1, copy_row inp out).
End Warp.

(** ** Seeding with random directions and the cost of a path *)

Section Seeding.
Context {T : Type} `{FloatLike T}.
Variable E : Env T.
Variable Sh : Shared T.
Local Open Scope scalar_scope.

(** What [FOD (direction)] returns when [values] holds [vals]. *)
Definition series (vals : Vals E) (direction : Point T) : T :=
  if precomputer Sh
  then precomputer_value E vals direction
  else SH_value E vals direction (lmax Sh).

(** What [values] holds after [get_data ()] at the seed position. *)
Definition seed_values (st : State E) : Vals E :=
  match snd (get_data_at E (pos st)) with Some v => v | None => values st end.

(** The directions the loop of lines 80-90 sets in its first [k]
    iterations when the generator starts in the state [r]: three normal
    deviates each, which become the components in the order in which the
    compiler evaluates the arguments of [set], normalised (lines 81-82). *)
Fixpoint seed_draws (k : nat) (r : Rng E) : list (Point T) :=
  match k with
  | O => []
  | S k' =>
      let (d1, r1) := rng_normal E r in
      let (d2, r2) := rng_normal E r1 in
      let (d3, r3) := rng_normal E r2 in
      normalise (set_args (args_order E) d1 d2 d3) :: seed_draws k' r3
  end.

(** The test of lines 84-85 on a direction tried at the seed. *)
Definition seed_accepts (vals : Vals E) (d : Point T) : bool :=
  negb (s_isnan (series vals d)) && (init_threshold Sh <? series vals d).

(** The number of samples the loop of lines 172-177 evaluates on a path
    with the amplitudes [amps]: it stops at the first rejected one. *)
Fixpoint evaluated (amps : list T) : nat :=
  match amps with
  | [] => O
  | a :: rest => if rejected Sh a then 1%nat else S (evaluated rest)
  end.
(** The constructor, lines 64-68, on the state [MethodBase] set up: the two
    counters start at 0 ([prev_prob_val] is not initialised). *)
Definition iFOD2_new (st : State E) : State E :=
  with_num_sample_runs 0 (with_mean_sample_num 0 st).

(** The destructor, lines 70-73: the number it reports. *)
Definition iFOD2_delete (st : State E) : T :=
  s_of_Z (mean_sample_num st) / s_of_Z (num_sample_runs st).

(** [k] calls of [next] in a row, whatever they return, and the number of
    them that returned true. *)
Fixpoint next_calls (k : nat) (st : State E) : nat * State E :=
  match k with
  | O => (O, st)
  | S k' =>
      let (ok, st1) := next Sh st in
      let (m, st2) := next_calls k' st1 in
      (if ok then S m else m, st2)
  end.
End Seeding.

(** ** The bounds check called on a sequence of voxels *)

Section WarpRun.
Context {T : Type} `{FloatLike T}.
Variable dummy_precision : T.
Variable cwiseAbs2_sum : Point T -> T.
Local Open Scope scalar_scope.

(** One copy of the functor called on the voxels the loop hands it, in
    order; a voxel is the pair of its rows in [in] and in [out].  The result
    is the functor afterwards and the rows of [out]. *)
Fixpoint BoundsCheck_loop (b : BoundsCheck) (voxels : list (list T * list T))
    : BoundsCheck * list (list T) :=
  match voxels with
  | [] => (b, [])
  | (inp, out) :: rest =>
      let (b1, out1) := BoundsCheck_call dummy_precision cwiseAbs2_sum b inp out in
      let (b2, outs) := BoundsCheck_loop b1 rest in
      (b2, out1 :: outs)
  end.

(** The voxels whose input vector meets the condition of line 64 for the
    marker and the tolerance of [b]. *)
Definition is_hit (b : BoundsCheck) (voxel : list T * list T) : bool :=
  isMuchSmallerThan dummy_precision cwiseAbs2_sum
    (vec b .- vector_of_row (fst voxel)) (precision b)
  || (hasNaN (vec b) && hasNaN (vector_of_row (fst voxel))).

(** What the call of lines 61-72 leaves in a voxel's row of [out] under the
    marker and the tolerance of [b]. *)
Definition corrected_row (b : BoundsCheck) (voxel : list T * list T) : list T :=
  if is_hit b voxel then fill_nan (snd voxel) else copy_row (fst voxel) (snd voxel).

End WarpRun.

(** ** The real numbers as scalars *)

Module Real.

Definition ltb (a b : R) : bool := if Rlt_dec a b then true else false.
Definition leb (a b : R) : bool := if Rle_dec a b then true else false.
Definition eqb (a b : R) : bool := if Req_dec_T a b then true else false.

#[export] Instance scalar : Scalar R := {
  s_add := Rplus;
  s_sub := Rminus;
  s_mul := Rmult;
  s_div := Rdiv;
  s_sqrt := sqrt;
  s_ltb := ltb;
  s_leb := leb;
  s_eqb := eqb;
  s_of_Z := IZR
}.

End Real.

(** ** Concrete worlds in binary32 *)

(** Small environments on which the functions above are run: an isotropic
    field (the coefficient vector is the amplitude itself), a generator that
    cycles through a few values, and [random_direction] either returning the
    reference direction or turning it by a fixed angle about the z axis. *)
Module Demo.
Import F32.

Definition f32 : Type := spec_float.

Definition c0_8 : f32 := SFdiv prec emax (of_Z 4) (of_Z 5).
Definition c0_6 : f32 := SFdiv prec emax (of_Z 3) (of_Z 5).
Definition c0_1 : f32 := SFdiv prec emax (of_Z 1) (of_Z 10).
(** [acos (0.8f)] *)
Definition angle_0_8 : f32 := S754_finite false 10796157 (-24).

(** The C library at the arguments the examples reach, NaN elsewhere. *)
Definition acos_tab (x : f32) : f32 :=
  if SFeqb x (of_Z 1) then of_Z 0
  else if SFeqb x c0_8 then angle_0_8
  else S754_nan.
Definition half_angle_0_8 : f32 := S754_finite false 10796157 (-25).
Definition third_angle_0_8 : f32 := S754_finite false 14394876 (-26).
Definition two_thirds_angle_0_8 : f32 := S754_finite false 14394876 (-25).
Definition sin_tab (x : f32) : f32 :=
  if SFeqb x angle_0_8 then c0_6
  else if SFeqb x half_angle_0_8 then S754_finite false 10610843 (-25)
  else if SFeqb x third_angle_0_8 then S754_finite false 14284744 (-26)
  else if SFeqb x two_thirds_angle_0_8 then S754_finite false 13957379 (-25)
  else S754_nan.
Definition cos_tab (x : f32) : f32 :=
  if SFeqb x angle_0_8 then c0_8
  else if SFeqb x half_angle_0_8 then S754_finite false 15916265 (-24)
  else if SFeqb x third_angle_0_8 then S754_finite false 16392730 (-24)
  else if SFeqb x two_thirds_angle_0_8 then S754_finite false 15256896 (-24)
  else S754_nan.
Definition pow_tab (x y : f32) : f32 :=
  if SFeqb y (of_Z 1) then x
  else if SFeqb y (of_Z 2) then SFmul prec emax x x
  else if SFeqb y (of_Z 3) then SFmul prec emax (SFmul prec emax x x) x
  else S754_nan.

(** glib's [MAX (a, b)]: [((a) > (b)) ? (a) : (b)] *)
Definition glib_MAX (a b : f32) : f32 := if SFltb b a then a else b.

(** The direction [d] turned about the z axis by the angle of cosine 0.8. *)
Definition turned (d : Point f32) : Point f32 :=
  mkPoint (SFsub prec emax (SFmul prec emax c0_8 (px d)) (SFmul prec emax c0_6 (py d)))
          (SFadd prec emax (SFmul prec emax c0_6 (px d)) (SFmul prec emax c0_8 (py d)))
          (pz d).

(** The uniform value [(r mod 4) / 4] and the "normal" value [(r mod 5) - 2]. *)
Definition uniform_of (r : Z) : f32 * Z := (of_scaled (r mod 4) (-2), (r + 1)%Z).
Definition normal_of (r : Z) : f32 * Z := (of_Z (r mod 5 - 2), (r + 1)%Z).

(** The worlds of the examples.  The arguments of line 81 are evaluated
    from right to left, as g++ does; after an overrun the arrays are taken
    to hold nothing that was stored (no example reads them then). *)
Definition env (field : Point f32 -> bool * option f32) (turn : bool) : Env f32 :=
  {| Vals := f32;
     Rng := Z;
     get_data_at := field;
     precomputer_value := fun v _ => v;
     SH_value := fun v _ _ => v;
     rng_uniform := uniform_of;
     rng_normal := normal_of;
     random_direction := fun d _ _ r => (if turn then turned d else d, (r + 1)%Z);
     acos := acos_tab;
     sin := sin_tab;
     cos := cos_tab;
     pow := pow_tab;
     MAX := glib_MAX;
     args_order := ZYX;
     overrun := fun _ _ => [] |}.

(** A field of constant amplitude [a], a field with no data anywhere, and a
    field of amplitude [2^100] where [x < 0.8] and 0 beyond. *)
Definition constant_field (a : f32) : Point f32 -> bool * option f32 :=
  fun _ => (true, Some a).
Definition no_data : Point f32 -> bool * option f32 := fun _ => (false, None).
Definition huge : f32 := of_scaled 1 100.
Definition step_field : Point f32 -> bool * option f32 :=
  fun p => (true, Some (if SFltb (px p) c0_8 then huge else of_Z 0)).

Definition point_of_Z (x y z : Z) : Point f32 := mkPoint (of_Z x) (of_Z y) (of_Z z).

(** The configuration the constructor of [Shared] builds for [n] samples
    per step, the amplitude threshold [thr], a unit step and a maximum angle
    of [acos (0.8)]; the other properties are absent, so [max_trials] is
    100.  The constructor only uses [sin] and [pow] of the environment,
    which all the worlds share. *)
Definition shared (n : Z) (thr init_thr : f32) (start : Point f32) : Shared f32 :=
  Shared_new (env no_data true)
    {| base_step_size := of_Z 1;
       base_max_angle := angle_0_8;
       base_threshold := thr;
       base_init_threshold := init_thr;
       base_init_dir := start |}
    8
    {| lmax_entry := None;
       samples_per_step := Some n;
       max_trials_entry := None;
       sh_precomputed := None |}.

Definition state (E : Env f32) (v : Vals E) (r : Rng E) (prev : f32) : State E :=
  {| pos := point_of_Z 0 0 0;
     dir := point_of_Z 1 0 0;
     values := v;
     rng := r;
     prev_prob_val := prev;
     mean_sample_num := 0;
     num_sample_runs := 0;
     path_evals := 0;
     fod_evals := 0;
     data_fetches := 0 |}.

(** The worlds and the states of the examples: a flat field of amplitude 1
    with turned or unturned candidate directions, a flat field of amplitude
    0.8, and the step field. *)
Definition flat_world : Env f32 := env (constant_field (of_Z 1)) true.
Definition straight_world : Env f32 := env (constant_field (of_Z 1)) false.
Definition low_world : Env f32 := env (constant_field c0_8) true.
Definition step_world : Env f32 := env step_field true.

Definition x_axis : Point f32 := point_of_Z 1 0 0.

Definition one_sample : Shared f32 := shared 1 c0_1 c0_1 x_axis.
Definition two_samples : Shared f32 := shared 2 c0_1 c0_1 x_axis.
(** The amplitude threshold 1 with the initialisation threshold 0.1. *)
Definition high_threshold : Shared f32 := shared 1 (of_Z 1) c0_1 x_axis.
Definition zero_threshold : Shared f32 := shared 3 (of_Z 0) c0_1 x_axis.

Definition flat_start : State flat_world := state flat_world (of_Z 0) 0%Z (of_Z 0).
Definition straight_start : State straight_world :=
  state straight_world (of_Z 0) 0%Z (of_Z 0).
Definition low_start : State low_world := state low_world (of_Z 0) 0%Z (of_Z 0).
Definition step_start : State step_world := state step_world (of_Z 0) 0%Z (of_Z 0).

(** The streamline seeded by [init] in the field of amplitude 0.8. *)
Definition low_seeded : State low_world := snd (init high_threshold low_start).

(** A unit vector as [normalise] leaves it, whose squared norm is above 1
    in binary32, and its opposite. *)
Definition skew_dir : Point f32 := normalise (point_of_Z 2 5 7).
Definition skew_opposite : Point f32 := pscale (of_Z (-1)) skew_dir.

(** The bounds check with the default marker and tolerance, and the sum of
    three squares, the first added to the sum of the other two. *)
Definition c1e_5 : f32 := SFdiv prec emax (of_Z 1) (of_Z 100000).
Definition sum_of_squares (x : Point f32) : f32 :=
  SFadd prec emax (SFmul prec emax (px x) (px x))
    (SFadd prec emax (SFmul prec emax (py x) (py x)) (SFmul prec emax (pz x) (pz x))).
Definition default_check : BoundsCheck (T := f32) :=
  BoundsCheck_new c1e_5 (point_of_Z 0 0 0) (point_of_Z 0 0 0).

(** A world with no data anywhere, a streamline whose [prev_prob_val] is
    NaN, two samples per step under the amplitude threshold 1, and a
    configuration with no initial direction. *)
Definition empty_world : Env f32 := env no_data true.
Definition empty_start : State empty_world := state empty_world (of_Z 0) 0%Z (of_Z 0).
Definition nan_seeded : State flat_world := state flat_world (of_Z 0) 0%Z S754_nan.
Definition two_high : Shared f32 := shared 2 (of_Z 1) c0_1 x_axis.
Definition random_seed : Shared f32 := shared 1 c0_1 c0_1 Point_invalid.

(** A flat world whose [random_direction] returns the opposite of the
    current direction (a maximum angle of half a turn allows it), and a
    streamline there whose direction is [skew_dir]. *)
Definition reversed_world : Env f32 :=
  {| Vals := f32;
     Rng := Z;
     get_data_at := constant_field (of_Z 1);
     precomputer_value := fun v _ => v;
     SH_value := fun v _ _ => v;
     rng_uniform := uniform_of;
     rng_normal := normal_of;
     random_direction := fun d _ _ r => (pscale (of_Z (-1)) d, (r + 1)%Z);
     acos := acos_tab;
     sin := sin_tab;
     cos := cos_tab;
     pow := pow_tab;
     MAX := glib_MAX;
     args_order := ZYX;
     overrun := fun _ _ => [] |}.
Definition skew_start : State reversed_world :=
  {| pos := point_of_Z 0 0 0;
     dir := skew_dir;
     values := (of_Z 0 : Vals reversed_world);
     rng := (0%Z : Rng reversed_world);
     prev_prob_val := of_Z 0;
     mean_sample_num := 0;
     num_sample_runs := 0;
     path_evals := 0;
     fod_evals := 0;
     data_fetches := 0 |}.

End Demo.

(** * Properties *)

(** ** Loop counters *)

Lemma size_wrap_add_l (a b : Z) : size_wrap (size_wrap a + b) = size_wrap (a + b).
Proof. unfold size_wrap. apply Z.add_mod_idemp_l. unfold size_modulus. lia. Qed.

Lemma size_wrap_add_r (a b : Z) : size_wrap (a + size_wrap b) = size_wrap (a + b).
Proof. unfold size_wrap. apply Z.add_mod_idemp_r. unfold size_modulus. lia. Qed.

Lemma size_wrap_small (a : Z) : (0 <= a < size_modulus)%Z -> size_wrap a = a.
Proof. intros Ha. unfold size_wrap. now apply Z.mod_small. Qed.

Lemma range_length (n : Z) : length (range n) = Z.to_nat n.
Proof. unfold range. now rewrite length_map, length_seq. Qed.

Lemma range_nth (n i d : Z) :
  (0 <= i < n)%Z -> nth (Z.to_nat i) (range n) d = i.
Proof.
  intros Hi. unfold range.
  rewrite nth_indep with (d' := Z.of_nat 0) by (rewrite length_map, length_seq; lia).
  rewrite map_nth, seq_nth by lia. lia.
Qed.

Lemma range_nth_error (n i : Z) :
  (0 <= i < n)%Z -> nth_error (range n) (Z.to_nat i) = Some i.
Proof.
  intros Hi.
  rewrite (nth_error_nth' _ 0%Z) by (rewrite range_length; lia).
  now rewrite range_nth.
Qed.

Lemma size_sub_1 (n : Z) :
  (1 <= n < size_modulus)%Z -> size_sub n 1 = (n - 1)%Z.
Proof. intros Hn. unfold size_sub, size_wrap. apply Z.mod_small. lia. Qed.

Lemma size_add_1_neq (c : Z) : size_add c 1 <> c.
Proof.
  unfold size_add, size_wrap, size_modulus. intros Heq.
  assert (Hr : (0 <= (c + 1) mod 2 ^ 64 < 2 ^ 64)%Z) by (apply Z.mod_pos_bound; lia).
  assert (Hc : (0 <= c < 2 ^ 64)%Z) by lia.
  destruct (Z.eq_dec c (2 ^ 64 - 1)) as [->|Hne].
  - vm_compute in Heq. discriminate.
  - rewrite Z.mod_small in Heq; lia.
Qed.

(** ** The arc generator *)

Section ArcFacts.
Context {T : Type} `{Scalar T}.
Variables (acos sin cos : T -> T).
Variables (n : Z) (step : T) (p d e : Point T).
Local Open Scope scalar_scope.

Lemma arc_straight :
  truthy (acos (cos_theta_of e d)) = false ->
  arc acos sin cos n step p d e = map (straight_sample n step p d) (range (n + 1)).
Proof. intros Ht. unfold arc. now rewrite Ht. Qed.

Lemma arc_curved :
  truthy (acos (cos_theta_of e d)) = true ->
  arc acos sin cos n step p d e =
    map (curved_sample sin cos n step p d
           (normalise (e .- cos_theta_of e d *: d)) (acos (cos_theta_of e d)))
        (range (size_sub n 1))
    ++ [(p .+ (step / acos (cos_theta_of e d))
              *: (sin (acos (cos_theta_of e d)) *: d
                  .+ (s_one - cos_theta_of e d)
                     *: normalise (e .- cos_theta_of e d *: d)), e)].
Proof. intros Ht. unfold arc. now rewrite Ht. Qed.

Lemma arc_straight_length :
  truthy (acos (cos_theta_of e d)) = false ->
  length (arc acos sin cos n step p d e) = Z.to_nat (n + 1).
Proof. intros Ht. now rewrite arc_straight, length_map, range_length. Qed.

Lemma arc_curved_length :
  (1 <= n < size_modulus)%Z ->
  truthy (acos (cos_theta_of e d)) = true ->
  length (arc acos sin cos n step p d e) = Z.to_nat n.
Proof.
  intros Hn Ht.
  rewrite arc_curved, length_app, length_map, range_length, size_sub_1 by assumption.
  simpl. lia.
Qed.

Lemma arc_straight_nth (i : Z) :
  truthy (acos (cos_theta_of e d)) = false ->
  (0 <= i <= n)%Z ->
  nth_error (arc acos sin cos n step p d e) (Z.to_nat i)
  = Some (straight_sample n step p d i).
Proof.
  intros Ht Hi. rewrite arc_straight by assumption.
  rewrite nth_error_map, range_nth_error by lia. reflexivity.
Qed.

Lemma arc_curved_nth (i : Z) :
  (1 <= n < size_modulus)%Z ->
  truthy (acos (cos_theta_of e d)) = true ->
  (0 <= i < n - 1)%Z ->
  nth_error (arc acos sin cos n step p d e) (Z.to_nat i)
  = Some (curved_sample sin cos n step p d
            (normalise (e .- cos_theta_of e d *: d)) (acos (cos_theta_of e d)) i).
Proof.
  intros Hn Ht Hi. rewrite arc_curved by assumption.
  rewrite nth_error_app1 by (rewrite length_map, range_length, size_sub_1; lia).
  rewrite nth_error_map, range_nth_error by (rewrite size_sub_1; lia). reflexivity.
Qed.

Lemma arc_curved_last :
  (1 <= n < size_modulus)%Z ->
  truthy (acos (cos_theta_of e d)) = true ->
  nth_error (arc acos sin cos n step p d e) (Z.to_nat (n - 1))
  = Some (p .+ (step / acos (cos_theta_of e d))
               *: (sin (acos (cos_theta_of e d)) *: d
                   .+ (s_one - cos_theta_of e d)
                      *: normalise (e .- cos_theta_of e d *: d)), e).
Proof.
  intros Hn Ht. rewrite arc_curved by assumption.
  rewrite nth_error_app2 by (rewrite length_map, range_length, size_sub_1; lia).
  rewrite length_map, range_length, size_sub_1, Nat.sub_diag by lia. reflexivity.
Qed.

(** In both cases the elements [0 .. num_samples - 1] of the arrays are
    stored. *)
Lemma arc_length_ge :
  (1 <= n < size_modulus)%Z ->
  (Z.to_nat n <= length (arc acos sin cos n step p d e))%nat.
Proof.
  intros Hn. destruct (truthy (acos (cos_theta_of e d))) eqn:Ht.
  - rewrite arc_curved_length by assumption. lia.
  - rewrite arc_straight_length by assumption. lia.
Qed.
End ArcFacts.

Section PathFacts.
Context {T : Type} `{FloatLike T}.
Variable E : Env T.
Variable Sh : Shared T.
Local Open Scope scalar_scope.

(** C4 (amended): [cos_theta] is the dot product of the drawn end direction
    with the current direction bounded above by 1 and not bounded below: it
    is 1 when the dot product compares greater than 1 and the dot product
    itself in every other case, a value below -1 or a NaN included; so it
    never compares greater than 1. *)
Theorem cos_theta_bounded_above_only (end_dir dir : Point T) :
  ((s_one <? dot end_dir dir) = true -> cos_theta_of end_dir dir = s_one)
  /\ ((s_one <? dot end_dir dir) = false ->
        cos_theta_of end_dir dir = dot end_dir dir)
  /\ (s_one <? cos_theta_of end_dir dir) = false.
Proof.
  unfold cos_theta_of, std_min.
  destruct (s_one <? dot end_dir dir) eqn:Hgt.
  - split; [reflexivity|]. split; [discriminate|]. apply s_ltb_irrefl.
  - split; [discriminate|]. split; [reflexivity | exact Hgt].
Qed.

(** [get_path] draws one direction and leaves everything but the generator
    as it was. *)
Lemma get_path_eq (st : State E) :
  get_path Sh st =
    (arc (acos E) (sin E) (cos E) (num_samples Sh) (step_size Sh)
         (pos st) (dir st) (end_dir_of Sh st),
     with_rng (snd (random_direction E (dir st) (max_angle Sh) (sin_max_angle Sh) (rng st))) st).
Proof.
  unfold get_path, bind, gets, ret, end_dir_of, rand_dir.
  destruct (random_direction E (dir st) (max_angle Sh) (sin_max_angle Sh) (rng st)).
  reflexivity.
Qed.

(** C1 (what the code does): in the straight case [get_path] stores
    [num_samples + 1] pairs, at the indices [0 .. num_samples].  Store [i]
    is the position [pos + (i+1) * (step_size / num_samples) * dir] with the
    tangent [dir], so the spacing and the tangents are as claimed, but the
    last store, at index [num_samples], is past the end of the arrays of
    [num_samples] elements. *)
Theorem get_path_straight_overruns (st : State E) :
  (0 <= num_samples Sh)%Z ->
  truthy (theta_of Sh st) = false ->
  let stores := fst (get_path Sh st) in
  length stores = Z.to_nat (num_samples Sh + 1)
  /\ (forall i, (0 <= i <= num_samples Sh)%Z ->
        nth_error stores (Z.to_nat i)
        = Some (pos st .+ (s_of_Z (i + 1) * (step_size Sh / s_of_Z (num_samples Sh)))
                          *: dir st,
                dir st))
  /\ ~ stores_in_bounds (num_samples Sh) stores.
Proof.
  intros Hn Ht stores. subst stores. rewrite get_path_eq. cbn [fst].
  unfold theta_of in Ht. split; [|split].
  - now apply arc_straight_length.
  - intros i Hi. now rewrite arc_straight_nth.
  - unfold stores_in_bounds. rewrite arc_straight_length by assumption. lia.
Qed.

(** C9 (amended): in the curved case, where the angle [theta = acos (min
    (end_dir . dir, 1))] is not zero (a NaN included), [get_path] stores
    exactly [num_samples] pairs, all within the arrays.  The last tangent
    is the drawn end direction itself.  With [curv = normalise (end_dir -
    cos_theta * dir)] and [R = step_size / theta], sample [i] before the
    last is the value, in the arithmetic of [value_type], of the point of
    the circle of radius [R] through [pos] at the arc angle [a = theta *
    (i+1) / num_samples], with the value of the tangent of the circle at
    that angle; the last position is the value of the point at the angle
    [theta]. *)
Theorem get_path_curved_arc (st : State E) :
  (1 <= num_samples Sh < size_modulus)%Z ->
  let end_dir :=
    fst (random_direction E (dir st) (max_angle Sh) (sin_max_angle Sh) (rng st)) in
  let cos_theta := std_min (dot end_dir (dir st)) s_one in
  let theta := acos E cos_theta in
  truthy theta = true ->
  let stores := fst (get_path Sh st) in
  let curv := normalise (end_dir .- cos_theta *: dir st) in
  let R := step_size Sh / theta in
  length stores = Z.to_nat (num_samples Sh)
  /\ stores_in_bounds (num_samples Sh) stores
  /\ nth_error stores (Z.to_nat (num_samples Sh - 1))
     = Some (pos st .+ R *: (sin E theta *: dir st .+ (s_one - cos_theta) *: curv),
             end_dir)
  /\ (forall i, (0 <= i < num_samples Sh - 1)%Z ->
        let a := (theta * s_of_Z (i + 1)) / s_of_Z (num_samples Sh) in
        nth_error stores (Z.to_nat i)
        = Some (pos st .+ R *: (sin E a *: dir st .+ (s_one - cos E a) *: curv),
                cos E a *: dir st .+ sin E a *: curv)).
Proof.
  intros Hn end_dir cos_theta theta Ht stores curv R.
  assert (Hend : end_dir_of Sh st = end_dir).
  { unfold end_dir_of, rand_dir. subst end_dir.
    destruct (random_direction E (dir st) (max_angle Sh) (sin_max_angle Sh) (rng st)).
    reflexivity. }
  subst stores. rewrite get_path_eq. cbn [fst]. rewrite Hend.
  change (std_min (dot end_dir (dir st)) s_one)
    with (cos_theta_of end_dir (dir st)) in cos_theta.
  subst R curv theta cos_theta. split; [|split; [|split]].
  - now apply arc_curved_length.
  - unfold stores_in_bounds. rewrite arc_curved_length by assumption. lia.
  - now rewrite arc_curved_last.
  - intros i Hi. now rewrite arc_curved_nth.
Qed.
End PathFacts.

(** ** Path evaluation *)

Section PathProb.
Context {T : Type} `{FloatLike T}.
Variable E : Env T.
Variable Sh : Shared T.
Local Open Scope scalar_scope.

Lemma same_track_refl (s : State E) : same_track s s.
Proof. unfold same_track. tauto. Qed.

Lemma same_track_trans (s1 s2 s3 : State E) :
  same_track s1 s2 -> same_track s2 s3 -> same_track s1 s3.
Proof. unfold same_track. intuition congruence. Qed.

Lemma FOD_at_spec (p t : Point T) (st : State E) :
  fst (FOD_at Sh p t st) = fst (amplitude_of E Sh (values st) (p, t))
  /\ values (snd (FOD_at Sh p t st)) = snd (amplitude_of E Sh (values st) (p, t))
  /\ same_track st (snd (FOD_at Sh p t st))
  /\ rng (snd (FOD_at Sh p t st)) = rng st
  /\ path_evals (snd (FOD_at Sh p t st)) = path_evals st.
Proof.
  unfold FOD_at, get_data, amplitude_of, FOD, bind, gets, modify, ret, same_track.
  cbn [fst snd].
  destruct (get_data_at E p) as [[|] [v|]]; cbn; tauto.
Qed.

Lemma prob_loop_spec (stores : list (Point T * Point T)) (idx : list Z) :
  forall (prob : T) (st : State E),
  fst (prob_loop Sh stores idx prob st)
  = (if existsb (rejected Sh) (path_amps E Sh (values st) (map (sample_at stores) idx))
     then None
     else Some (fold_left s_mul (path_amps E Sh (values st) (map (sample_at stores) idx)) prob))
  /\ same_track st (snd (prob_loop Sh stores idx prob st))
  /\ rng (snd (prob_loop Sh stores idx prob st)) = rng st
  /\ path_evals (snd (prob_loop Sh stores idx prob st)) = path_evals st.
Proof.
  induction idx as [|i idx' IH]; intros prob st.
  - cbn. split; [reflexivity|]. split; [apply same_track_refl|]. tauto.
  - cbn [prob_loop map path_amps]. unfold bind.
    destruct (FOD_at_spec (fst (sample_at stores i)) (snd (sample_at stores i)) st)
      as (Hv & Hvals & Htr & Hrng & Hpe).
    rewrite <- surjective_pairing in Hv, Hvals.
    destruct (FOD_at Sh (fst (sample_at stores i)) (snd (sample_at stores i)) st)
      as [fod_amp st1].
    cbn [fst snd] in *.
    destruct (amplitude_of E Sh (values st) (sample_at stores i)) as [a vals'].
    cbn [fst snd] in *. subst a vals'.
    cbn [existsb fold_left]. fold (rejected Sh fod_amp).
    destruct (rejected Sh fod_amp) eqn:Hrej.
    + cbn. auto.
    + cbn [orb]. destruct (IH (s_mul prob fod_amp) st1) as (IH1 & IH2 & IH3 & IH4).
      split; [exact IH1|]. split; [eapply same_track_trans; eassumption|].
      split; congruence.
Qed.
End PathProb.

Lemma map_nth_seq_firstn {A : Type} (d : A) (l : list A) :
  forall k : nat, (k <= length l)%nat ->
  map (fun j => nth j l d) (seq 0 k) = firstn k l.
Proof.
  induction l as [|x l IH]; intros k Hk.
  - cbn in Hk. assert (k = 0%nat) by lia. subst k. reflexivity.
  - destruct k as [|k]; [reflexivity|].
    cbn [seq map firstn nth]. f_equal.
    rewrite <- seq_shift, map_map. cbn [nth]. apply IH. cbn in Hk. lia.
Qed.

Section PathProbFacts.
Context {T : Type} `{FloatLike T}.
Variable E : Env T.
Variable Sh : Shared T.
Local Open Scope scalar_scope.

Lemma map_sample_at_range (stores : list (Point T * Point T)) (n : Z) :
  (Z.to_nat n <= length stores)%nat ->
  map (sample_at stores) (range n) = firstn (Z.to_nat n) stores.
Proof.
  intros Hn. unfold range. rewrite map_map.
  rewrite <- (map_nth_seq_firstn (@Point_invalid T _ _, @Point_invalid T _ _)) by assumption.
  apply map_ext. intros j. unfold sample_at. now rewrite Nat2Z.id.
Qed.

Lemma get_path_tick (st : State E) :
  fst (get_path Sh (tick_path_evals st)) = fst (get_path Sh st)
  /\ same_track st (snd (get_path Sh (tick_path_evals st)))
  /\ values (snd (get_path Sh (tick_path_evals st))) = values st
  /\ path_evals (snd (get_path Sh (tick_path_evals st))) = Datatypes.S (path_evals st).
Proof.
  rewrite !get_path_eq. unfold end_dir_of, rand_dir, same_track. cbn.
  destruct (random_direction E (dir st) (max_angle Sh) (sin_max_angle Sh) (rng st)).
  cbn. tauto.
Qed.

(** In the curved case the arrays hold the stores of [get_path]. *)
Lemma arrays_after_curved (st : State E) :
  (1 <= num_samples Sh < size_modulus)%Z ->
  truthy (theta_of Sh st) = true ->
  arrays_after E Sh (fst (get_path Sh st)) = fst (get_path Sh st)
  /\ length (fst (get_path Sh st)) = Z.to_nat (num_samples Sh).
Proof.
  intros Hn Ht. rewrite get_path_eq. cbn [fst]. unfold theta_of in Ht.
  assert (Hlen : length (arc (acos E) (sin E) (cos E) (num_samples Sh) (step_size Sh)
                            (pos st) (dir st) (end_dir_of Sh st))
                 = Z.to_nat (num_samples Sh)) by now apply arc_curved_length.
  split; [|exact Hlen].
  unfold arrays_after. rewrite Hlen.
  destruct (Z.leb_spec (Z.of_nat (Z.to_nat (num_samples Sh))) (num_samples Sh));
    [reflexivity | lia].
Qed.

(** The value and the two points [rand_path_prob] hands back, and what it
    leaves untouched. *)
Lemma rand_path_prob_spec (next_pos next_dir : Point T) (st : State E) :
  let stores := arrays_after E Sh (fst (get_path Sh st)) in
  let amps := path_amps E Sh (values st) (map (sample_at stores) (range (num_samples Sh))) in
  fst (rand_path_prob Sh next_pos next_dir st)
  = (if existsb (rejected Sh) amps
     then (s_nan, next_pos, next_dir)
     else (fold_left s_mul amps s_one,
           fst (sample_at stores (size_sub (num_samples Sh) 1)),
           snd (sample_at stores (size_sub (num_samples Sh) 1))))
  /\ same_track st (snd (rand_path_prob Sh next_pos next_dir st))
  /\ path_evals (snd (rand_path_prob Sh next_pos next_dir st)) = Datatypes.S (path_evals st).
Proof.
  intros stores amps. subst stores amps.
  unfold rand_path_prob, bind, modify.
  destruct (get_path_tick st) as (Hs & Htr & Hv & Hpe).
  destruct (get_path Sh (tick_path_evals st)) as [stores st1]. cbn [fst snd] in *.
  rewrite <- Hs, <- Hv.
  destruct (prob_loop_spec Sh (arrays_after E Sh stores) (range (num_samples Sh))
              s_one st1) as (Hr & Htr2 & _ & Hpe2).
  destruct (prob_loop Sh (arrays_after E Sh stores) (range (num_samples Sh)) s_one st1)
    as [r st2].
  cbn [fst snd] in *. subst r.
  split.
  - destruct (existsb _ _); reflexivity.
  - split.
    + destruct (existsb _ _); cbn; eapply same_track_trans; eassumption.
    + destruct (existsb _ _); cbn; congruence.
Qed.

(** C6 (amended): where [get_path] stays within the arrays (the curved
    case), [rand_path_prob] returns NaN, and leaves the proposed state of
    the caller alone, if some sample of the path has an amplitude that is
    NaN or below the amplitude threshold; otherwise it returns the product
    of the [num_samples] amplitudes, multiplied in order from 1.0, with the
    position and the tangent of the final sample. *)
Theorem rand_path_prob_nan_or_product (next_pos next_dir : Point T) (st : State E) :
  (1 <= num_samples Sh < size_modulus)%Z ->
  truthy (theta_of Sh st) = true ->
  let samples := fst (get_path Sh st) in
  let amps := path_amps E Sh (values st) samples in
  let result := fst (rand_path_prob Sh next_pos next_dir st) in
  length samples = Z.to_nat (num_samples Sh)
  /\ (existsb (rejected Sh) amps = true ->
        result = (s_nan, next_pos, next_dir)
        /\ s_isnan (fst (fst result)) = true)
  /\ (existsb (rejected Sh) amps = false ->
        exists final, nth_error samples (Z.to_nat (num_samples Sh - 1)) = Some final
        /\ result = (fold_left s_mul amps s_one, fst final, snd final)).
Proof.
  intros Hn Ht samples amps result.
  destruct (arrays_after_curved st Hn Ht) as (Harr & Hlen).
  destruct (rand_path_prob_spec next_pos next_dir st) as (Hr & _).
  cbv zeta in Hr. rewrite Harr in Hr. fold samples in Hr, Hlen.
  rewrite map_sample_at_range in Hr by lia.
  rewrite <- Hlen, firstn_all in Hr.
  fold amps in Hr. fold result in Hr.
  split; [exact Hlen|]. split.
  - intros Hex. rewrite Hex in Hr. rewrite Hr. cbn [fst]. split; [reflexivity|].
    apply s_isnan_nan.
  - intros Hex. rewrite Hex in Hr.
    exists (sample_at samples (size_sub (num_samples Sh) 1)). split; [|exact Hr].
    rewrite size_sub_1 by assumption. unfold sample_at. apply nth_error_nth'. lia.
Qed.
End PathProbFacts.

(** ** What a path evaluation costs and leaves *)

Section PathCost.
Context {T : Type} `{FloatLike T}.
Variable E : Env T.
Variable Sh : Shared T.
Local Open Scope scalar_scope.

Lemma path_amps_length (samples : list (Point T * Point T)) :
  forall vals : Vals E, length (path_amps E Sh vals samples) = length samples.
Proof.
  induction samples as [|s rest IH]; intros vals; [reflexivity|].
  cbn [path_amps]. destruct (amplitude_of E Sh vals s) as [a vals'].
  cbn [length]. now rewrite IH.
Qed.

Lemma evaluated_le_length (amps : list T) : (evaluated Sh amps <= length amps)%nat.
Proof.
  induction amps as [|a rest IH]; [apply le_n|].
  cbn [evaluated length]. destruct (rejected Sh a); lia.
Qed.

Lemma evaluated_all (amps : list T) :
  existsb (rejected Sh) amps = false -> evaluated Sh amps = length amps.
Proof.
  induction amps as [|a rest IH]; [reflexivity|].
  cbn [existsb evaluated length]. destruct (rejected Sh a); [discriminate|].
  cbn [orb]. intros Hrest. now rewrite IH.
Qed.

Lemma evaluated_stops (amps : list T) :
  forall (k : nat) (a : T),
  nth_error amps k = Some a -> rejected Sh a = true ->
  (evaluated Sh amps <= k + 1)%nat.
Proof.
  induction amps as [|b rest IH]; intros k a Hk Ha.
  - destruct k; discriminate.
  - cbn [evaluated]. destruct k as [|k]; cbn [nth_error] in Hk.
    + injection Hk as ->. rewrite Ha. lia.
    + destruct (rejected Sh b); [lia|]. specialize (IH k a Hk Ha). lia.
Qed.

Lemma FOD_at_cost (p t : Point T) (st : State E) :
  data_fetches (snd (FOD_at Sh p t st)) = S (data_fetches st)
  /\ (fod_evals st <= fod_evals (snd (FOD_at Sh p t st)) <= S (fod_evals st))%nat.
Proof.
  unfold FOD_at, get_data, FOD, bind, gets, modify, ret. cbn [fst snd].
  destruct (get_data_at E p) as [[|] [v|]]; cbn; lia.
Qed.

Lemma prob_loop_cost (stores : list (Point T * Point T)) (idx : list Z) :
  forall (prob : T) (st : State E),
  data_fetches (snd (prob_loop Sh stores idx prob st))
  = (data_fetches st
     + evaluated Sh (path_amps E Sh (values st) (map (sample_at stores) idx)))%nat
  /\ (fod_evals st <= fod_evals (snd (prob_loop Sh stores idx prob st))
      <= fod_evals st
         + evaluated Sh (path_amps E Sh (values st) (map (sample_at stores) idx)))%nat.
Proof.
  induction idx as [|i idx' IH]; intros prob st.
  - cbn. lia.
  - cbn [prob_loop map path_amps]. unfold bind.
    destruct (FOD_at_spec Sh (fst (sample_at stores i)) (snd (sample_at stores i)) st)
      as (Hv & Hvals & _).
    destruct (FOD_at_cost (fst (sample_at stores i)) (snd (sample_at stores i)) st)
      as (Hdf & Hfe).
    rewrite <- surjective_pairing in Hv, Hvals.
    destruct (FOD_at Sh (fst (sample_at stores i)) (snd (sample_at stores i)) st)
      as [fod_amp st1].
    cbn [fst snd] in *.
    destruct (amplitude_of E Sh (values st) (sample_at stores i)) as [a vals'].
    cbn [fst snd] in *. subst a vals'.
    cbn [evaluated]. fold (rejected Sh fod_amp).
    destruct (rejected Sh fod_amp).
    + cbn. lia.
    + destruct (IH (s_mul prob fod_amp) st1) as (IH1 & IH2). lia.
Qed.

Lemma get_path_cost (st : State E) :
  rng (snd (get_path Sh st))
  = snd (random_direction E (dir st) (max_angle Sh) (sin_max_angle Sh) (rng st))
  /\ values (snd (get_path Sh st)) = values st
  /\ data_fetches (snd (get_path Sh st)) = data_fetches st
  /\ fod_evals (snd (get_path Sh st)) = fod_evals st.
Proof. rewrite get_path_eq. cbn. tauto. Qed.

(** Evaluating a candidate path draws exactly one random direction, around
    the current direction, whatever the outcome, and changes neither the
    position, the direction, [prev_prob_val] nor the diagnostic counters of
    the streamline. *)
Theorem rand_path_prob_draws_once (next_pos next_dir : Point T) (st : State E) :
  rng (snd (rand_path_prob Sh next_pos next_dir st))
  = snd (random_direction E (dir st) (max_angle Sh) (sin_max_angle Sh) (rng st))
  /\ pos (snd (rand_path_prob Sh next_pos next_dir st)) = pos st
  /\ dir (snd (rand_path_prob Sh next_pos next_dir st)) = dir st
  /\ prev_prob_val (snd (rand_path_prob Sh next_pos next_dir st)) = prev_prob_val st
  /\ mean_sample_num (snd (rand_path_prob Sh next_pos next_dir st)) = mean_sample_num st
  /\ num_sample_runs (snd (rand_path_prob Sh next_pos next_dir st)) = num_sample_runs st.
Proof.
  destruct (rand_path_prob_spec Sh next_pos next_dir st)
    as (_ & (Hp & Hd & Hv & Hm & Hr) & _).
  split; [|tauto].
  unfold rand_path_prob, bind, modify.
  destruct (get_path_cost (tick_path_evals st)) as (Hrng & _).
  destruct (get_path Sh (tick_path_evals st)) as [stores st1]. cbn [fst snd] in *.
  destruct (prob_loop_spec Sh (arrays_after E Sh stores) (range (num_samples Sh))
              s_one st1) as (_ & _ & Hrng2 & _).
  cbn [dir rng tick_path_evals] in Hrng.
  destruct (prob_loop Sh (arrays_after E Sh stores) (range (num_samples Sh)) s_one st1)
    as [[prob|] st2];
    unfold ret; cbn [fst snd] in *; congruence.
Qed.

Lemma rand_path_prob_cost (next_pos next_dir : Point T) (st : State E) :
  let arrays := arrays_after E Sh (fst (get_path Sh st)) in
  let amps :=
    path_amps E Sh (values st) (map (sample_at arrays) (range (num_samples Sh))) in
  let st' := snd (rand_path_prob Sh next_pos next_dir st) in
  data_fetches st' = (data_fetches st + evaluated Sh amps)%nat
  /\ (fod_evals st <= fod_evals st' <= fod_evals st + evaluated Sh amps)%nat.
Proof.
  intros arrays amps st'. subst arrays amps st'.
  unfold rand_path_prob, bind, modify.
  destruct (get_path_tick Sh st) as (Hs & _ & Hv & _).
  destruct (get_path_cost (tick_path_evals st)) as (_ & _ & Hdf & Hfe).
  destruct (get_path Sh (tick_path_evals st)) as [stores st1]. cbn [fst snd] in *.
  rewrite <- Hs, <- Hv.
  destruct (prob_loop_cost (arrays_after E Sh stores) (range (num_samples Sh))
              s_one st1) as (Hc1 & Hc2).
  cbn [data_fetches fod_evals tick_path_evals] in Hdf, Hfe.
  destruct (prob_loop Sh (arrays_after E Sh stores) (range (num_samples Sh)) s_one st1)
    as [[prob|] st2];
    unfold ret; cbn [fst snd] in *; lia.
Qed.

(** Where [get_path] stays within the arrays (the curved case), a path
    evaluation stops at the first rejected sample: it fetches the data of
    the samples up to and including the first whose amplitude is NaN or
    below the threshold, of all [num_samples] when there is none, and
    evaluates the series at most once per fetch. *)
Theorem rand_path_prob_stops_at_first_rejected
    (next_pos next_dir : Point T) (st : State E) :
  (1 <= num_samples Sh < size_modulus)%Z ->
  truthy (theta_of Sh st) = true ->
  let samples := fst (get_path Sh st) in
  let amps := path_amps E Sh (values st) samples in
  let st' := snd (rand_path_prob Sh next_pos next_dir st) in
  length samples = Z.to_nat (num_samples Sh)
  /\ data_fetches st' = (data_fetches st + evaluated Sh amps)%nat
  /\ (fod_evals st <= fod_evals st' <= fod_evals st + evaluated Sh amps)%nat
  /\ (1 <= evaluated Sh amps <= Z.to_nat (num_samples Sh))%nat
  /\ (forall (k : nat) (a : T),
        nth_error amps k = Some a -> rejected Sh a = true ->
        (evaluated Sh amps <= k + 1)%nat)
  /\ (existsb (rejected Sh) amps = false ->
        evaluated Sh amps = Z.to_nat (num_samples Sh)).
Proof.
  intros Hn Ht samples amps st'.
  destruct (arrays_after_curved Sh st Hn Ht) as (Harr & Hsamples).
  fold samples in Hsamples.
  assert (Hamps : length amps = Z.to_nat (num_samples Sh)).
  { subst amps. now rewrite path_amps_length. }
  assert (Hcost :
    data_fetches st' = (data_fetches st + evaluated Sh amps)%nat
    /\ (fod_evals st <= fod_evals st' <= fod_evals st + evaluated Sh amps)%nat).
  { pose proof (rand_path_prob_cost next_pos next_dir st) as Hc.
    cbv zeta in Hc. rewrite Harr in Hc.
    rewrite map_sample_at_range in Hc by (fold samples; lia).
    fold samples in Hc. rewrite <- Hsamples, firstn_all in Hc. exact Hc. }
  destruct Hcost as (Hc1 & Hc2).
  split; [exact Hsamples|].
  split; [exact Hc1|]. split; [exact Hc2|]. split; [|split].
  - pose proof (evaluated_le_length amps) as Hle. split; [|lia].
    destruct amps as [|a rest]; [cbn in Hamps; lia|].
    cbn [evaluated]. destruct (rejected Sh a); lia.
  - apply evaluated_stops.
  - intros Hex. now rewrite evaluated_all.
Qed.
End PathCost.

(** ** The step sampler, [next] *)

Section NextFacts.
Context {T : Type} `{FloatLike T}.
Variable E : Env T.
Variable Sh : Shared T.
Local Open Scope scalar_scope.

Lemma rand_path_prob_frame (np nd : Point T) (st : State E) :
  same_track st (snd (rand_path_prob Sh np nd st))
  /\ path_evals (snd (rand_path_prob Sh np nd st)) = Datatypes.S (path_evals st).
Proof. destruct (rand_path_prob_spec Sh np nd st) as (_ & H1 & H2). now split. Qed.

Lemma probe_loop_frame (k : nat) :
  forall (mva : T) (np nd : Point T) (st : State E),
  same_track st (snd (probe_loop Sh k mva np nd st))
  /\ path_evals (snd (probe_loop Sh k mva np nd st)) = (path_evals st + k)%nat.
Proof.
  induction k as [|k IH]; intros mva np nd st.
  - cbn. split; [apply same_track_refl | lia].
  - cbn [probe_loop]. unfold bind.
    destruct (rand_path_prob_frame np nd st) as (Htr & Hpe).
    destruct (rand_path_prob Sh np nd st) as [[[val np'] nd'] st1].
    cbn [fst snd] in *.
    destruct (IH (if mva <? val then val else mva) np' nd' st1) as (IH1 & IH2).
    split; [eapply same_track_trans; eassumption | lia].
Qed.

(** The maximum of the probe is never NaN: it starts at 0.0 and is only
    replaced by a value that compared greater. *)
Lemma probe_loop_not_nan (k : nat) :
  forall (mva : T) (np nd : Point T) (st : State E),
  s_isnan mva = false ->
  s_isnan (fst (fst (fst (probe_loop Sh k mva np nd st)))) = false.
Proof.
  induction k as [|k IH]; intros mva np nd st Hm.
  - exact Hm.
  - cbn [probe_loop]. unfold bind.
    destruct (rand_path_prob Sh np nd st) as [[[val np'] nd'] st1].
    apply IH. destruct (mva <? val) eqn:Hlt; [|exact Hm].
    destruct (s_isnan val) eqn:Hv; [|reflexivity].
    rewrite (s_ltb_nan_r mva val Hv) in Hlt. discriminate.
Qed.

(** What one run of the sampling loop does, by its result. *)
Lemma sample_loop_spec (k : nat) :
  forall (n : Z) (max_val : T) (np nd : Point T) (st : State E),
  let r := sample_loop Sh k n max_val np nd st in
  prev_prob_val (snd r) = prev_prob_val st
  /\ (fst r = false ->
        same_track st (snd r) /\ path_evals (snd r) = (path_evals st + k)%nat)
  /\ (fst r = true ->
        exists j : nat,
          (j < k)%nat
          /\ path_evals (snd r) = (path_evals st + j + 1)%nat
          /\ mean_sample_num (snd r) = size_add (mean_sample_num st) (n + Z.of_nat j)
          /\ num_sample_runs (snd r) = size_add (num_sample_runs st) 1
          /\ exists (np0 nd0 : Point T) (s1 : State E),
               same_track st s1
               /\ (prob_threshold Sh <? fst (fst (fst (rand_path_prob Sh np0 nd0 s1)))) = true
               /\ pos (snd r) = snd (fst (fst (rand_path_prob Sh np0 nd0 s1)))
               /\ dir (snd r) = normalise (snd (fst (rand_path_prob Sh np0 nd0 s1)))).
Proof.
  induction k as [|k IH]; intros n max_val np nd st r; subst r.
  - cbn. split; [reflexivity|]. split.
    + intros _. split; [apply same_track_refl | lia].
    + discriminate.
  - cbn [sample_loop]. unfold bind.
    destruct (rand_path_prob_frame np nd st) as (Htr & Hpe).
    pose proof (eq_refl (rand_path_prob Sh np nd st)) as Hrun.
    destruct (rand_path_prob Sh np nd st) as [[[val np'] nd'] st1] in Hrun at 2, Htr, Hpe |- *.
    cbn [fst snd] in Htr, Hpe.
    assert (Hrej : forall s : State E,
      same_track st s -> path_evals s = Datatypes.S (path_evals st) ->
      let r := sample_loop Sh k (n + 1) max_val np' nd' s in
      prev_prob_val (snd r) = prev_prob_val st
      /\ (fst r = false ->
            same_track st (snd r) /\ path_evals (snd r) = (path_evals st + Datatypes.S k)%nat)
      /\ (fst r = true ->
            exists j : nat,
              (j < Datatypes.S k)%nat
              /\ path_evals (snd r) = (path_evals st + j + 1)%nat
              /\ mean_sample_num (snd r) = size_add (mean_sample_num st) (n + Z.of_nat j)
              /\ num_sample_runs (snd r) = size_add (num_sample_runs st) 1
              /\ exists (np0 nd0 : Point T) (s1 : State E),
                   same_track st s1
                   /\ (prob_threshold Sh <? fst (fst (fst (rand_path_prob Sh np0 nd0 s1)))) = true
                   /\ pos (snd r) = snd (fst (fst (rand_path_prob Sh np0 nd0 s1)))
                   /\ dir (snd r) = normalise (snd (fst (rand_path_prob Sh np0 nd0 s1))))).
    { intros s Hs Hpes.
      destruct (IH (n + 1)%Z max_val np' nd' s) as (IH0 & IHf & IHt).
      destruct Hs as (Hp & Hd & Hprev & Hmean & Hruns).
      cbv zeta. split; [congruence|]. split.
      - intros Hf. destruct (IHf Hf) as (Htr2 & Hpe2). split.
        + eapply same_track_trans; [|exact Htr2]. unfold same_track. tauto.
        + lia.
      - intros Ht. destruct (IHt Ht) as (j & Hj & Hpj & Hmj & Hrj & np0 & nd0 & s1 & Hs1 & Hrest).
        exists (Datatypes.S j). split; [lia|]. split; [lia|].
        split; [rewrite Hmj, Hmean; f_equal; lia|].
        split; [congruence|].
        exists np0, nd0, s1. split; [|exact Hrest].
        eapply same_track_trans; [|exact Hs1]. unfold same_track. tauto. }
    destruct (prob_threshold Sh <? val) eqn:Hthr; [|now apply Hrej].
    destruct (rng_uniform E (rng st1)) as [u r1].
    destruct (u <? val / max_val).
    2:{ apply Hrej; [|exact Hpe]. destruct Htr as (Hp & Hd & Hprev & Hmean & Hruns).
        unfold same_track. cbn. tauto. }
    clear Hrej IH. destruct Htr as (Hp & Hd & Hprev & Hmean & Hruns).
    unfold accept, bind, modify, ret.
    cbn [fst snd prev_prob_val path_evals mean_sample_num num_sample_runs pos dir
         with_dir with_pos with_mean_sample_num with_num_sample_runs with_rng].
    split; [exact Hprev|]. split; [discriminate|]. intros _.
    exists 0%nat. split; [lia|]. split; [lia|].
    split; [rewrite Hmean; f_equal; lia|]. split; [now rewrite Hruns|].
    exists np, nd, st. split; [apply same_track_refl|].
    rewrite Hrun. cbn [fst snd]. auto.
Qed.
End NextFacts.

Section NextTheorems.
Context {T : Type} `{FloatLike T}.
Variable E : Env T.
Variable Sh : Shared T.
Local Open Scope scalar_scope.

Lemma probe_frame (st : State E) :
  same_track st (snd (probe Sh st))
  /\ path_evals (snd (probe Sh st)) = (path_evals st + 100)%nat.
Proof. apply probe_loop_frame. Qed.

Lemma after_probe_frame (st : State E) :
  pos (after_probe Sh st) = pos st /\ dir (after_probe Sh st) = dir st
  /\ prev_prob_val (after_probe Sh st) = max_val_actual_of Sh st
  /\ mean_sample_num (after_probe Sh st) = mean_sample_num st
  /\ num_sample_runs (after_probe Sh st) = num_sample_runs st
  /\ path_evals (after_probe Sh st) = (path_evals st + 100)%nat.
Proof.
  destruct (probe_frame st) as ((Hp & Hd & _ & Hm & Hr) & Hpe).
  unfold after_probe, max_val_actual_of.
  destruct (probe Sh st) as [[[mva np] nd] st1].
  cbn [fst snd] in *.
  repeat split; assumption || reflexivity.
Qed.

Lemma next_eq (st : State E) :
  next Sh st =
    if fails_check Sh st then (false, after_probe Sh st)
    else sample_loop Sh (Z.to_nat (trial_budget Sh (max_val_actual_of Sh st))) 0
           (MAX E (prev_prob_val st) (max_val_actual_of Sh st) * s_1_5)
           (probe_pos Sh st) (probe_dir Sh st) (after_probe Sh st).
Proof.
  unfold fails_check, after_probe, probe_pos, probe_dir, max_val_actual_of.
  destruct (probe_frame st) as ((_ & _ & Hprev & _) & _).
  unfold next. unfold bind at 1.
  destruct (probe Sh st) as [[[mva np] nd] st1]. cbn [fst snd] in *.
  unfold bind, gets, modify, ret. rewrite Hprev.
  destruct (s_isnan (MAX E (prev_prob_val st) mva)
            || (MAX E (prev_prob_val st) mva <? prob_threshold Sh)); reflexivity.
Qed.

(** C2 (amended): the maximum of line 116 is [MAX (prev_prob_val,
    max_val_actual)], not yet scaled.  When it is NaN or below
    [prob_threshold], [next] returns false right after the probe, with no
    sampling trial (the state is the one the 100 probe evaluations left,
    with [prev_prob_val] set).  Otherwise the sampling loop runs with the
    envelope [1.5] times that maximum. *)
Theorem next_termination_check (st : State E) :
  let max_val := MAX E (prev_prob_val st) (max_val_actual_of Sh st) in
  path_evals (after_probe Sh st) = (path_evals st + 100)%nat
  /\ (s_isnan max_val || (max_val <? prob_threshold Sh) = true ->
        next Sh st = (false, after_probe Sh st))
  /\ (s_isnan max_val || (max_val <? prob_threshold Sh) = false ->
        next Sh st =
          sample_loop Sh (Z.to_nat (trial_budget Sh (max_val_actual_of Sh st))) 0
            (max_val * s_1_5) (probe_pos Sh st) (probe_dir Sh st) (after_probe Sh st)).
Proof.
  intros max_val. subst max_val.
  split; [apply after_probe_frame|].
  split; intros Hc; rewrite next_eq; unfold fails_check; now rewrite Hc.
Qed.

(** C3 (amended): [next] sets [prev_prob_val] to the maximum found by the
    probe, [max_val_actual], on every return.  A call that returns false
    changes neither the position, the direction nor the two diagnostic
    counters; a call that returns true adds one to [num_sample_runs] and the
    index [n] of the accepted trial to [mean_sample_num]. *)
Theorem next_state_updates (st : State E) :
  let r := next Sh st in
  prev_prob_val (snd r) = max_val_actual_of Sh st
  /\ (fst r = false ->
        pos (snd r) = pos st /\ dir (snd r) = dir st
        /\ mean_sample_num (snd r) = mean_sample_num st
        /\ num_sample_runs (snd r) = num_sample_runs st)
  /\ (fst r = true ->
        num_sample_runs (snd r) = size_add (num_sample_runs st) 1
        /\ exists n : Z,
             (0 <= n < trial_budget Sh (max_val_actual_of Sh st))%Z
             /\ mean_sample_num (snd r) = size_add (mean_sample_num st) n).
Proof.
  intros r. subst r. rewrite next_eq.
  destruct (after_probe_frame st) as (Hp & Hd & Hprev & Hm & Hr & Hpe).
  destruct (fails_check Sh st).
  - cbn [fst snd]. split; [exact Hprev|]. split; [tauto | discriminate].
  - destruct (sample_loop_spec Sh
                (Z.to_nat (trial_budget Sh (max_val_actual_of Sh st))) 0
                (MAX E (prev_prob_val st) (max_val_actual_of Sh st) * s_1_5)
                (probe_pos Sh st) (probe_dir Sh st) (after_probe Sh st)) as (H1 & Hf & Ht).
    split; [congruence|]. split.
    + intros Hres. destruct (Hf Hres) as ((Hp2 & Hd2 & _ & Hm2 & Hr2) & _).
      repeat split; congruence.
    + intros Hres. destruct (Ht Hres) as (j & Hj & _ & Hmj & Hrj & _).
      split; [congruence|]. exists (Z.of_nat j). split; [lia|].
      rewrite Hmj, Hm. reflexivity.
Qed.

(** C5: when [next] returns true, the state it stores comes from one
    evaluation of a candidate path, drawn from the current position and
    direction, whose probability [val] compared greater than
    [prob_threshold]; [val] was not NaN.  The new position is the final
    position of that path, the new direction its final tangent,
    normalised. *)
Theorem next_accepts_only_above_threshold (st st' : State E) :
  next Sh st = (true, st') ->
  exists (np0 nd0 : Point T) (s1 : State E),
    pos s1 = pos st /\ dir s1 = dir st
    /\ (prob_threshold Sh <? fst (fst (fst (rand_path_prob Sh np0 nd0 s1)))) = true
    /\ s_isnan (fst (fst (fst (rand_path_prob Sh np0 nd0 s1)))) = false
    /\ pos st' = snd (fst (fst (rand_path_prob Sh np0 nd0 s1)))
    /\ dir st' = normalise (snd (fst (rand_path_prob Sh np0 nd0 s1))).
Proof.
  intros Hnext. rewrite next_eq in Hnext.
  destruct (fails_check Sh st); [discriminate|].
  destruct (after_probe_frame st) as (Hp & Hd & _).
  destruct (sample_loop_spec Sh
              (Z.to_nat (trial_budget Sh (max_val_actual_of Sh st))) 0
              (MAX E (prev_prob_val st) (max_val_actual_of Sh st) * s_1_5)
              (probe_pos Sh st) (probe_dir Sh st) (after_probe Sh st)) as (_ & _ & Ht).
  rewrite Hnext in Ht. cbn [fst snd] in Ht.
  destruct (Ht eq_refl) as (_ & _ & _ & _ & _ & np0 & nd0 & s1 & Hs1 & Hthr & Hpos & Hdir).
  exists np0, nd0, s1. destruct Hs1 as (Hp1 & Hd1 & _).
  split; [congruence|]. split; [congruence|]. split; [exact Hthr|].
  split; [|split; assumption].
  destruct (s_isnan (fst (fst (fst (rand_path_prob Sh np0 nd0 s1))))) eqn:Hnan;
    [|reflexivity].
  rewrite (s_ltb_nan_r _ _ Hnan) in Hthr. discriminate.
Qed.

(** C7: after the 100 evaluations of the probe, [next] evaluates at most
    [nmax] candidate paths, where [nmax] is 10000 when [max_val_actual]
    compared greater than [prob_threshold] and [max_trials] otherwise.  A
    call that returns false has either stopped at the check of line 119,
    with no trial, or used all [nmax] trials. *)
Theorem next_trial_bound (st : State E) :
  let mva := max_val_actual_of Sh st in
  let nmax := trial_budget Sh mva in
  let r := next Sh st in
  ((prob_threshold Sh <? mva) = true -> nmax = 10000%Z)
  /\ ((prob_threshold Sh <? mva) = false -> nmax = max_trials Sh)
  /\ (path_evals st + 100 <= path_evals (snd r) <= path_evals st + 100 + Z.to_nat nmax)%nat
  /\ (fst r = false ->
        path_evals (snd r) = (path_evals st + 100)%nat
        \/ path_evals (snd r) = (path_evals st + 100 + Z.to_nat nmax)%nat).
Proof.
  intros mva nmax r. subst mva nmax r.
  split; [unfold trial_budget; now intros ->|].
  split; [unfold trial_budget; now intros ->|].
  rewrite next_eq.
  destruct (after_probe_frame st) as (_ & _ & _ & _ & _ & Hpe).
  destruct (fails_check Sh st).
  - cbn [fst snd]. rewrite Hpe. split; [lia | auto].
  - destruct (sample_loop_spec Sh
                (Z.to_nat (trial_budget Sh (max_val_actual_of Sh st))) 0
                (MAX E (prev_prob_val st) (max_val_actual_of Sh st) * s_1_5)
                (probe_pos Sh st) (probe_dir Sh st) (after_probe Sh st)) as (_ & Hf & Ht).
    cbv zeta in Hf, Ht.
    destruct (sample_loop Sh _ 0 _ (probe_pos Sh st) (probe_dir Sh st) (after_probe Sh st))
      as [[|] st'] eqn:Hrun; cbn [fst snd] in *.
    + destruct (Ht eq_refl) as (j & Hj & Hpj & _). split; [lia | discriminate].
    + destruct (Hf eq_refl) as (_ & Hpf). split; [lia|]. intros _. right. lia.
Qed.
End NextTheorems.

(** ** More on the step sampler *)

Section NextMore.
Context {T : Type} `{FloatLike T}.
Variable E : Env T.
Variable Sh : Shared T.
Local Open Scope scalar_scope.

Lemma next_prev_prob_val (st : State E) :
  prev_prob_val (snd (next Sh st)) = max_val_actual_of Sh st.
Proof.
  rewrite next_eq.
  destruct (after_probe_frame Sh st) as (_ & _ & Hprev & _).
  destruct (fails_check Sh st); [exact Hprev|].
  destruct (sample_loop_spec Sh
              (Z.to_nat (trial_budget Sh (max_val_actual_of Sh st))) 0
              (MAX E (prev_prob_val st) (max_val_actual_of Sh st) * s_1_5)
              (probe_pos Sh st) (probe_dir Sh st) (after_probe Sh st)) as (H1 & _).
  congruence.
Qed.

(** The maximum found by the probe is never NaN, so a call of [next] never
    leaves [prev_prob_val] NaN.  When [MAX] is the comparison macro
    [((a) > (b)) ? (a) : (b)], the maximum of line 116 is not NaN either,
    even if [prev_prob_val] is: the [isnan] test of line 119 never fires. *)
Theorem next_max_val_never_nan (st : State E) :
  s_isnan (s_zero (T := T)) = false ->
  (forall a b : T, MAX E a b = if b <? a then a else b) ->
  s_isnan (max_val_actual_of Sh st) = false
  /\ s_isnan (prev_prob_val (snd (next Sh st))) = false
  /\ s_isnan (MAX E (prev_prob_val st) (max_val_actual_of Sh st)) = false
  /\ fails_check Sh st
     = (MAX E (prev_prob_val st) (max_val_actual_of Sh st) <? prob_threshold Sh).
Proof.
  intros Hzero Hmax.
  assert (Hmva : s_isnan (max_val_actual_of Sh st) = false).
  { unfold max_val_actual_of, probe. now apply probe_loop_not_nan. }
  assert (Hm : s_isnan (MAX E (prev_prob_val st) (max_val_actual_of Sh st)) = false).
  { rewrite Hmax.
    destruct (max_val_actual_of Sh st <? prev_prob_val st) eqn:Hlt; [|exact Hmva].
    destruct (s_isnan (prev_prob_val st)) eqn:Hp; [|reflexivity].
    rewrite (s_ltb_nan_r _ _ Hp) in Hlt. discriminate. }
  split; [exact Hmva|]. split; [now rewrite next_prev_prob_val|].
  split; [exact Hm|]. unfold fails_check. now rewrite Hm.
Qed.

Lemma rejected_nan : rejected Sh s_nan = true.
Proof. unfold rejected. now rewrite s_isnan_nan. Qed.

Lemma rand_path_prob_without_data (np nd : Point T) (st : State E) :
  (forall p : Point T, fst (get_data_at E p) = false) ->
  (1 <= num_samples Sh)%Z ->
  fst (rand_path_prob Sh np nd st) = (s_nan, np, nd).
Proof.
  intros Hnone Hn.
  destruct (rand_path_prob_spec Sh np nd st) as (Hr & _). cbv zeta in Hr.
  rewrite Hr. clear Hr.
  unfold range. destruct (Z.to_nat (num_samples Sh)) as [|m] eqn:Hm; [lia|].
  cbn [seq map path_amps]. unfold amplitude_of at 1.
  specialize (Hnone (fst (sample_at (arrays_after E Sh (fst (get_path Sh st)))
                             (Z.of_nat 0)))).
  destruct (get_data_at E (fst (sample_at (arrays_after E Sh (fst (get_path Sh st)))
                                  (Z.of_nat 0))))
    as [ok upd].
  cbn [fst] in Hnone. subst ok.
  cbn [existsb]. now rewrite rejected_nan.
Qed.

Lemma probe_loop_without_data (k : nat) :
  (forall p : Point T, fst (get_data_at E p) = false) ->
  (1 <= num_samples Sh)%Z ->
  forall (mva : T) (np nd : Point T) (st : State E),
  fst (fst (fst (probe_loop Sh k mva np nd st))) = mva.
Proof.
  intros Hnone Hn. induction k as [|k IH]; intros mva np nd st; [reflexivity|].
  cbn [probe_loop]. unfold bind.
  pose proof (rand_path_prob_without_data np nd st Hnone Hn) as Hv.
  destruct (rand_path_prob Sh np nd st) as [[[val np'] nd'] st1].
  cbn [fst] in Hv. injection Hv as -> -> ->.
  rewrite (s_ltb_nan_r mva s_nan s_isnan_nan). apply IH.
Qed.

(** Where no position has data, every candidate path is rejected and
    [next] returns false: the streamline stops where it is, with
    [prev_prob_val] reset to 0.0 and its diagnostic counters unchanged. *)
Theorem next_without_data (st : State E) :
  (forall p : Point T, fst (get_data_at E p) = false) ->
  (1 <= num_samples Sh)%Z ->
  fst (next Sh st) = false
  /\ prev_prob_val (snd (next Sh st)) = s_zero
  /\ pos (snd (next Sh st)) = pos st
  /\ dir (snd (next Sh st)) = dir st
  /\ mean_sample_num (snd (next Sh st)) = mean_sample_num st
  /\ num_sample_runs (snd (next Sh st)) = num_sample_runs st.
Proof.
  intros Hnone Hn.
  assert (Hmva : max_val_actual_of Sh st = s_zero).
  { unfold max_val_actual_of, probe. now apply probe_loop_without_data. }
  pose proof (next_prev_prob_val st) as Hprev. rewrite Hmva in Hprev.
  revert Hprev. rewrite next_eq.
  destruct (after_probe_frame Sh st) as (Hp & Hd & _ & Hm & Hr & _).
  destruct (fails_check Sh st); [cbn [fst snd]; tauto|].
  destruct (sample_loop_spec Sh
              (Z.to_nat (trial_budget Sh (max_val_actual_of Sh st))) 0
              (MAX E (prev_prob_val st) (max_val_actual_of Sh st) * s_1_5)
              (probe_pos Sh st) (probe_dir Sh st) (after_probe Sh st)) as (_ & Hf & Ht).
  destruct (fst (sample_loop Sh _ 0 _ (probe_pos Sh st) (probe_dir Sh st)
                   (after_probe Sh st))).
  - destruct (Ht eq_refl) as (_ & _ & _ & _ & _ & np0 & nd0 & s1 & _ & Hthr & _).
    rewrite (rand_path_prob_without_data np0 nd0 s1 Hnone Hn) in Hthr.
    cbn [fst] in Hthr.
    rewrite (s_ltb_nan_r (prob_threshold Sh) s_nan s_isnan_nan) in Hthr. discriminate.
  - destruct (Hf eq_refl) as ((Hp2 & Hd2 & _ & Hm2 & Hr2) & _).
    intros Hprev. repeat split; congruence.
Qed.
End NextMore.

(** ** The diagnostic counters *)

Section NextCounters.
Context {T : Type} `{FloatLike T}.
Variable E : Env T.
Variable Sh : Shared T.
Local Open Scope scalar_scope.

Lemma trial_budget_le (a : T) :
  (trial_budget Sh a <= Z.max 10000 (max_trials Sh))%Z.
Proof. unfold trial_budget. destruct (prob_threshold Sh <? a); lia. Qed.

Lemma next_counters_step (st : State E) :
  (fst (next Sh st) = false ->
     mean_sample_num (snd (next Sh st)) = mean_sample_num st
     /\ num_sample_runs (snd (next Sh st)) = num_sample_runs st)
  /\ (fst (next Sh st) = true ->
       num_sample_runs (snd (next Sh st)) = size_add (num_sample_runs st) 1
       /\ exists n : Z,
            (0 <= n < Z.max 10000 (max_trials Sh))%Z
            /\ mean_sample_num (snd (next Sh st)) = size_add (mean_sample_num st) n).
Proof.
  rewrite next_eq.
  destruct (after_probe_frame Sh st) as (_ & _ & _ & Hm & Hr & _).
  pose proof (trial_budget_le (max_val_actual_of Sh st)) as Hb.
  destruct (fails_check Sh st).
  - cbn [fst snd]. split; [tauto | discriminate].
  - destruct (sample_loop_spec Sh
                (Z.to_nat (trial_budget Sh (max_val_actual_of Sh st))) 0
                (MAX E (prev_prob_val st) (max_val_actual_of Sh st) * s_1_5)
                (probe_pos Sh st) (probe_dir Sh st) (after_probe Sh st)) as (_ & Hf & Ht).
    split.
    + intros Hres. destruct (Hf Hres) as ((_ & _ & _ & Hm2 & Hr2) & _).
      split; congruence.
    + intros Hres. destruct (Ht Hres) as (j & Hj & _ & Hmj & Hrj & _).
      split; [congruence|]. exists (Z.of_nat j). split; [lia|].
      rewrite Hmj, Hm. reflexivity.
Qed.

Lemma next_calls_inv (k : nat) :
  forall (st : State E) (a : Z),
  num_sample_runs st = a -> (0 <= a)%Z ->
  (0 <= mean_sample_num st <= (Z.max 10000 (max_trials Sh) - 1) * a)%Z ->
  ((a + Z.of_nat k) * Z.max 10000 (max_trials Sh) < size_modulus)%Z ->
  (fst (next_calls Sh k st) <= k)%nat
  /\ num_sample_runs (snd (next_calls Sh k st)) = (a + Z.of_nat (fst (next_calls Sh k st)))%Z
  /\ (0 <= mean_sample_num (snd (next_calls Sh k st))
       <= (Z.max 10000 (max_trials Sh) - 1) * (a + Z.of_nat (fst (next_calls Sh k st))))%Z.
Proof.
  induction k as [|k IH]; intros st a Hr Ha Hm Hk.
  - cbn [next_calls fst snd]. rewrite Z.add_0_r. split; [lia|]. split; assumption.
  - cbn [next_calls].
    destruct (next_counters_step st) as (Hf & Ht).
    destruct (next Sh st) as [ok st1]. cbn [fst snd] in Hf, Ht.
    set (B := Z.max 10000 (max_trials Sh)) in *.
    assert (HB : (10000 <= B)%Z) by (subst B; lia).
    destruct ok.
    + destruct (Ht eq_refl) as (Hr1 & n & Hn & Hm1).
      assert (Hr1' : num_sample_runs st1 = (a + 1)%Z).
      { rewrite Hr1, Hr. unfold size_add. apply size_wrap_small. nia. }
      assert (Hm1' : mean_sample_num st1 = (mean_sample_num st + n)%Z).
      { rewrite Hm1. unfold size_add. apply size_wrap_small. nia. }
      destruct (IH st1 (a + 1)%Z Hr1') as (I1 & I2 & I3); [lia | nia | nia |].
      destruct (next_calls Sh k st1) as [m st2]. cbn [fst snd] in *.
      split; [lia|]. split; [lia|].
      replace (a + Z.of_nat (S m))%Z with (a + 1 + Z.of_nat m)%Z by lia. exact I3.
    + destruct (Hf eq_refl) as (Hm1 & Hr1).
      destruct (IH st1 a) as (I1 & I2 & I3); [congruence | lia | rewrite Hm1; exact Hm | nia |].
      destruct (next_calls Sh k st1) as [m st2]. cbn [fst snd] in *.
      split; [lia|]. split; assumption.
Qed.

(** The counters the destructor reports from.  Over any [k] calls of
    [next] on a freshly constructed tracker, [num_sample_runs] is the number
    of calls that returned true and [mean_sample_num] is at most that number
    times the largest index a trial can have, so long as the counters cannot
    wrap.  When no call returned true the destructor reports [0 / 0]. *)
Theorem next_calls_counters (k : nat) (st0 : State E) :
  (Z.of_nat k * Z.max 10000 (max_trials Sh) < size_modulus)%Z ->
  let r := next_calls Sh k (iFOD2_new st0) in
  (fst r <= k)%nat
  /\ num_sample_runs (snd r) = Z.of_nat (fst r)
  /\ (0 <= mean_sample_num (snd r)
       <= (Z.max 10000 (max_trials Sh) - 1) * Z.of_nat (fst r))%Z
  /\ (fst r = O -> iFOD2_delete (snd r) = s_of_Z 0 / s_of_Z 0).
Proof.
  intros Hk r.
  destruct (next_calls_inv k (iFOD2_new st0) (a := 0)) as (I1 & I2 & I3);
    [reflexivity | lia | cbn; lia | exact Hk |].
  fold r in I1, I2, I3. cbn [Z.add] in I2, I3.
  split; [exact I1|]. split; [exact I2|]. split; [exact I3|].
  intros Hnone. unfold iFOD2_delete. rewrite I2. rewrite Hnone in I3 |- *.
  replace (mean_sample_num (snd r)) with 0%Z by (cbn in I3; lia). reflexivity.
Qed.
End NextCounters.

(** ** The configuration *)

(** The constructor leaves [prob_threshold] at [threshold] to the power
    [num_samples] whatever the properties hold, and with no property set
    there is one sample per step, the budget [max_trials] is 100 and the
    precomputed table is used. *)
Theorem Shared_new_spec {T : Type} `{FloatLike T} (E : Env T) (base : SharedBase T)
    (lmax0 : Z) (properties : Properties) :
  prob_threshold (Shared_new E base lmax0 properties)
  = pow E (threshold (Shared_new E base lmax0 properties))
      (s_of_Z (num_samples (Shared_new E base lmax0 properties)))
  /\ (samples_per_step properties = None ->
        num_samples (Shared_new E base lmax0 properties) = 1%Z)
  /\ (max_trials_entry properties = None ->
        max_trials (Shared_new E base lmax0 properties) = 100%Z)
  /\ (sh_precomputed properties = None ->
        precomputer (Shared_new E base lmax0 properties) = true).
Proof.
  unfold Shared_new, properties_set. cbn.
  split; [reflexivity|]. split; [now intros ->|]. split; now intros ->.
Qed.

(** ** Seeding, [init] *)

Section InitFacts.
Context {T : Type} `{FloatLike T}.
Variable E : Env T.
Variable Sh : Shared T.
Local Open Scope scalar_scope.

Lemma finite_nan_false : s_finite (s_nan (T := T)) = false.
Proof.
  destruct (s_finite (s_nan (T := T))) eqn:Hf; [|reflexivity].
  apply s_finite_not_nan in Hf. rewrite s_isnan_nan in Hf. discriminate.
Qed.

(** C8: with a fixed initial direction configured, [init] queries the field
    exactly once: it fetches the data at the seed position once and
    evaluates the series along that direction once (the evaluation is
    skipped where the position has no data, the amplitude being undefined,
    NaN, there).  It returns true exactly when the amplitude is finite and
    compares greater than [init_threshold], and then the direction is the
    configured one and [prev_prob_val] is the amplitude to the power
    [num_samples]; an amplitude that does not compare greater than the
    threshold gives false.  In every case the random number generator is
    left untouched and no candidate path is evaluated. *)
Theorem init_fixed_direction (st : State E) :
  point_not (init_dir Sh) = false ->
  let amp := seed_amplitude Sh st in
  let r := init Sh st in
  fst r = s_finite amp && (init_threshold Sh <? amp)
  /\ (fst r = true ->
        dir (snd r) = init_dir Sh
        /\ prev_prob_val (snd r) = pow E amp (s_of_Z (num_samples Sh)))
  /\ ((init_threshold Sh <? amp) = false -> fst r = false)
  /\ rng (snd r) = rng st
  /\ pos (snd r) = pos st
  /\ path_evals (snd r) = path_evals st
  /\ data_fetches (snd r) = (data_fetches st + 1)%nat
  /\ fod_evals (snd r)
     = (fod_evals st + if fst (get_data_at E (pos st)) then 1 else 0)%nat.
Proof.
  intros Hdir amp r. subst amp r.
  unfold seed_amplitude, amplitude_of, init, get_data_here, get_data, FOD.
  unfold bind, gets, modify, ret. rewrite Hdir. cbn [fst snd].
  destruct (get_data_at E (pos st)) as [[|] upd]; cbn [negb fst snd].
  - destruct upd as [v|]; cbn;
      match goal with |- context [s_finite ?a] => destruct (s_finite a) end;
      cbn [andb];
      match goal with
      | |- context [?x <? ?a] => destruct (x <? a)
      | |- _ => idtac
      end; cbn; repeat split; try discriminate; try reflexivity; try lia; auto.
  - rewrite finite_nan_false. cbn [andb].
    destruct upd; cbn; repeat split; try discriminate; try reflexivity; try lia; auto.
Qed.
End InitFacts.

(** ** Seeding without data and with random directions *)

Lemma last_cons {A : Type} (l : list A) :
  forall a d : A, last (a :: l) d = last l a.
Proof.
  induction l as [|b l IH]; intros a d; [reflexivity|].
  change (last (a :: b :: l) d) with (last (b :: l) d).
  rewrite (IH b d), (IH b a). reflexivity.
Qed.

Section InitMore.
Context {T : Type} `{FloatLike T}.
Variable E : Env T.
Variable Sh : Shared T.
Local Open Scope scalar_scope.

(** Where the seed position has no data, [init] returns false whatever the
    configuration: it draws no random number, evaluates nothing and leaves
    the direction and [prev_prob_val] as they were. *)
Theorem init_without_data (st : State E) :
  fst (get_data_at E (pos st)) = false ->
  fst (init Sh st) = false
  /\ rng (snd (init Sh st)) = rng st
  /\ dir (snd (init Sh st)) = dir st
  /\ pos (snd (init Sh st)) = pos st
  /\ prev_prob_val (snd (init Sh st)) = prev_prob_val st
  /\ fod_evals (snd (init Sh st)) = fod_evals st
  /\ path_evals (snd (init Sh st)) = path_evals st
  /\ data_fetches (snd (init Sh st)) = S (data_fetches st).
Proof.
  intros Hnone.
  unfold init, get_data_here, get_data, bind, gets, modify, ret. cbn [fst snd].
  destruct (get_data_at E (pos st)) as [ok upd]. cbn [fst] in Hnone. subst ok.
  destruct upd; cbn; tauto.
Qed.

(** The test of the random branch is [val > init_threshold] alone: the
    [isnan] test adds nothing, and an infinite amplitude passes. *)
Lemma seed_accepts_eq (vals : Vals E) (d : Point T) :
  seed_accepts E Sh vals d = (init_threshold Sh <? series E Sh vals d).
Proof.
  unfold seed_accepts.
  destruct (s_isnan (series E Sh vals d)) eqn:Hnan; [|reflexivity].
  cbn [negb andb]. symmetry. now apply s_ltb_nan_r.
Qed.

Lemma init_loop_spec (k : nat) :
  forall st : State E,
  let cands := seed_draws E k (rng st) in
  let r := init_loop Sh k st in
  fst r = existsb (seed_accepts E Sh (values st)) cands
  /\ (forall d, find (seed_accepts E Sh (values st)) cands = Some d ->
        dir (snd r) = d
        /\ prev_prob_val (snd r)
           = pow E (series E Sh (values st) d) (s_of_Z (num_samples Sh)))
  /\ (find (seed_accepts E Sh (values st)) cands = None ->
        dir (snd r) = last cands (dir st)
        /\ prev_prob_val (snd r) = prev_prob_val st
        /\ fod_evals (snd r) = (fod_evals st + k)%nat)
  /\ (fod_evals st <= fod_evals (snd r) <= fod_evals st + k)%nat
  /\ pos (snd r) = pos st
  /\ values (snd r) = values st
  /\ path_evals (snd r) = path_evals st
  /\ data_fetches (snd r) = data_fetches st.
Proof.
  induction k as [|k IH]; intros st cands r; subst cands r.
  - cbn. repeat split; try discriminate; try reflexivity; lia.
  - cbn [init_loop seed_draws]. unfold FOD. unfold bind, gets, modify, ret.
    destruct (rng_normal E (rng st)) as [x r1]. cbn [rng with_rng].
    destruct (rng_normal E r1) as [y r2]. cbn [rng with_rng].
    destruct (rng_normal E r2) as [z r3].
    cbn [fst snd rng dir values with_rng with_dir tick_fod_evals].
    set (d := normalise (set_args (args_order E) x y z)).
    cbn [existsb find]. unfold seed_accepts at 1 3 5.
    change (if precomputer Sh
            then precomputer_value E (values st) d
            else SH_value E (values st) d (lmax Sh))
      with (series E Sh (values st) d).
    set (s1 := tick_fod_evals (with_dir d (with_rng r3 (with_rng r2 (with_rng r1 st))))).
    assert (Hs1 : rng s1 = r3 /\ values s1 = values st /\ dir s1 = d
                  /\ prev_prob_val s1 = prev_prob_val st
                  /\ fod_evals s1 = S (fod_evals st) /\ pos s1 = pos st
                  /\ path_evals s1 = path_evals st
                  /\ data_fetches s1 = data_fetches st)
      by (subst s1; cbn; tauto).
    destruct Hs1 as (Hr & Hv & Hd & Hp & Hf & Hpos & Hpe & Hdf).
    assert (Hrest :
      let r := init_loop Sh k s1 in
      fst r = existsb (seed_accepts E Sh (values st)) (seed_draws E k r3)
      /\ (forall d0, find (seed_accepts E Sh (values st)) (seed_draws E k r3) = Some d0 ->
            dir (snd r) = d0
            /\ prev_prob_val (snd r)
               = pow E (series E Sh (values st) d0) (s_of_Z (num_samples Sh)))
      /\ (find (seed_accepts E Sh (values st)) (seed_draws E k r3) = None ->
            dir (snd r) = last (d :: seed_draws E k r3) (dir st)
            /\ prev_prob_val (snd r) = prev_prob_val st
            /\ fod_evals (snd r) = (fod_evals st + S k)%nat)
      /\ (fod_evals st <= fod_evals (snd r) <= fod_evals st + S k)%nat
      /\ pos (snd r) = pos st
      /\ values (snd r) = values st
      /\ path_evals (snd r) = path_evals st
      /\ data_fetches (snd r) = data_fetches st).
    { destruct (IH s1) as (I1 & I2 & I3 & I4 & I5 & I6 & I7 & I8).
      rewrite Hr, Hv in *. cbv zeta.
      split; [exact I1|]. split; [exact I2|]. split.
      - intros Hnone. destruct (I3 Hnone) as (J1 & J2 & J3).
        rewrite last_cons. rewrite J1, Hd. split; [reflexivity|].
        split; [congruence | lia].
      - split; [lia|]. repeat split; congruence. }
    destruct (s_isnan (series E Sh (values st) d)) eqn:Hnan;
      cbn [negb andb orb]; [exact Hrest|].
    destruct (init_threshold Sh <? series E Sh (values st) d) eqn:Hthr;
      [|exact Hrest].
    clear Hrest IH. cbn [fst snd]. split; [reflexivity|]. split.
    { intros d0 Hd0. injection Hd0 as <-. cbn. tauto. }
    split; [discriminate|]. cbn. repeat split; try reflexivity; lia.
Qed.

(** With no initial direction configured and data at the seed position,
    [init] tries the directions drawn from the generator one after the
    other (three deviates each, which become the components in the order
    of evaluation the compiler chose), at most [max_trials] of them, and
    returns true exactly when one
    has an amplitude that compares greater than [init_threshold]
    (infinite amplitudes included).  The first such direction becomes the
    current direction and [prev_prob_val] its amplitude to the power
    [num_samples].  Otherwise all [max_trials] directions are evaluated, the
    current direction is left at the last one tried and [prev_prob_val] is
    unchanged.  The position never changes. *)
Theorem init_random_direction (st : State E) :
  point_not (init_dir Sh) = true ->
  fst (get_data_at E (pos st)) = true ->
  let vals := seed_values st in
  let cands := seed_draws E (Z.to_nat (max_trials Sh)) (rng st) in
  let r := init Sh st in
  fst r = existsb (fun d => init_threshold Sh <? series E Sh vals d) cands
  /\ (forall d, find (fun d => init_threshold Sh <? series E Sh vals d) cands = Some d ->
        dir (snd r) = d
        /\ prev_prob_val (snd r)
           = pow E (series E Sh vals d) (s_of_Z (num_samples Sh)))
  /\ (find (fun d => init_threshold Sh <? series E Sh vals d) cands = None ->
        dir (snd r) = last cands (dir st)
        /\ prev_prob_val (snd r) = prev_prob_val st
        /\ fod_evals (snd r) = (fod_evals st + Z.to_nat (max_trials Sh))%nat)
  /\ (fod_evals st <= fod_evals (snd r) <= fod_evals st + Z.to_nat (max_trials Sh))%nat
  /\ pos (snd r) = pos st
  /\ path_evals (snd r) = path_evals st
  /\ data_fetches (snd r) = S (data_fetches st).
Proof.
  intros Hdir Hdata vals cands r. subst vals cands r.
  assert (Hext : forall vals l,
    existsb (fun d => init_threshold Sh <? series E Sh vals d) l
    = existsb (seed_accepts E Sh vals) l
    /\ find (fun d => init_threshold Sh <? series E Sh vals d) l
       = find (seed_accepts E Sh vals) l).
  { intros vals l. induction l as [|d l [IH1 IH2]]; [split; reflexivity|].
    cbn [existsb find]. rewrite seed_accepts_eq, IH1, IH2. split; reflexivity. }
  unfold init, get_data_here, get_data, bind, gets, modify, ret, seed_values.
  cbn [fst snd].
  destruct (get_data_at E (pos st)) as [ok upd]. cbn [fst] in Hdata. subst ok.
  cbn [negb snd]. rewrite Hdir.
  destruct upd as [v|].
  - set (s0 := with_values v (tick_data_fetches st)).
    destruct (init_loop_spec (Z.to_nat (max_trials Sh)) s0)
      as (I1 & I2 & I3 & I4 & I5 & _ & I7 & I8).
    cbv zeta in I1, I2, I3.
    change (values s0) with v in *. change (rng s0) with (rng st) in *.
    change (dir s0) with (dir st) in *.
    change (prev_prob_val s0) with (prev_prob_val st) in *.
    change (fod_evals s0) with (fod_evals st) in *.
    change (pos s0) with (pos st) in *.
    change (path_evals s0) with (path_evals st) in *.
    change (data_fetches s0) with (S (data_fetches st)) in *.
    destruct (Hext v (seed_draws E (Z.to_nat (max_trials Sh)) (rng st))) as (-> & ->).
    tauto.
  - set (s0 := tick_data_fetches st).
    destruct (init_loop_spec (Z.to_nat (max_trials Sh)) s0)
      as (I1 & I2 & I3 & I4 & I5 & _ & I7 & I8).
    cbv zeta in I1, I2, I3.
    change (values s0) with (values st) in *. change (rng s0) with (rng st) in *.
    change (dir s0) with (dir st) in *.
    change (prev_prob_val s0) with (prev_prob_val st) in *.
    change (fod_evals s0) with (fod_evals st) in *.
    change (pos s0) with (pos st) in *.
    change (path_evals s0) with (path_evals st) in *.
    change (data_fetches s0) with (S (data_fetches st)) in *.
    destruct (Hext (values st) (seed_draws E (Z.to_nat (max_trials Sh)) (rng st)))
      as (-> & ->).
    tauto.
Qed.
End InitMore.

(** ** The warp bounds check *)

Section WarpFacts.
Context {T : Type} `{FloatLike T}.
Variable dummy_precision : T.
Variable cwiseAbs2_sum : Point T -> T.
Local Open Scope scalar_scope.

(** C10: on a voxel whose rows have three components, the call writes NaN
    to the three components of the output and adds one to its count exactly
    when the difference between the marker and the input vector is much
    smaller than the tolerance in Eigen's sense (the sum of the squares of
    its components is at most the square of [dummy_precision * tolerance])
    or both the marker and the input vector have a NaN component; in every
    other case the output components are the input components and the
    count is unchanged.  The marker and the tolerance never change. *)
Theorem BoundsCheck_call_spec (b : BoundsCheck) (inp out : list T) :
  length inp = 3%nat -> length out = 3%nat ->
  let v := vector_of_row inp in
  let hit := (cwiseAbs2_sum (vec b .- v)
                <=? (dummy_precision * precision b) * (dummy_precision * precision b))
             || (hasNaN (vec b) && hasNaN v) in
  let r := BoundsCheck_call dummy_precision cwiseAbs2_sum b inp out in
  (hit = true <->
     snd r = [s_nan; s_nan; s_nan] /\ count (fst r) = size_add (count b) 1)
  /\ (hit = false -> snd r = inp /\ count (fst r) = count b)
  /\ vec (fst r) = vec b /\ precision (fst r) = precision b.
Proof.
  intros Hin Hout v hit r. subst v hit r.
  destruct inp as [|x0 [|x1 [|x2 [|]]]]; try discriminate.
  destruct out as [|y0 [|y1 [|y2 [|]]]]; try discriminate.
  unfold BoundsCheck_call, out_of_bounds, isMuchSmallerThan. cbn [val vec precision count].
  destruct ((cwiseAbs2_sum (vec b .- vector_of_row [x0; x1; x2])
               <=? dummy_precision * precision b * (dummy_precision * precision b))
            || hasNaN (vec b) && hasNaN (vector_of_row [x0; x1; x2])) eqn:Hhit.
  - cbn. split; [|split; [discriminate | auto]].
    split; auto.
  - cbn. split; [|split; auto].
    split; [discriminate|]. intros (_ & Hc). symmetry in Hc.
    now apply size_add_1_neq in Hc.
Qed.
End WarpFacts.

(** ** The bounds check over an image *)

Section WarpMore.
Context {T : Type} `{FloatLike T}.
Variable dummy_precision : T.
Variable cwiseAbs2_sum : Point T -> T.
Local Open Scope scalar_scope.

Local Abbreviation call := (BoundsCheck_call dummy_precision cwiseAbs2_sum).
Local Abbreviation loop := (BoundsCheck_loop dummy_precision cwiseAbs2_sum).
Local Abbreviation hit := (is_hit dummy_precision cwiseAbs2_sum).
Local Abbreviation corrected_row := (corrected_row dummy_precision cwiseAbs2_sum).

Lemma call_eq (b : BoundsCheck) (inp out : list T) :
  snd (call b inp out) = corrected_row b (inp, out)
  /\ vec (fst (call b inp out)) = vec b
  /\ precision (fst (call b inp out)) = precision b
  /\ count (fst (call b inp out))
     = if hit b (inp, out) then size_add (count b) 1 else count b.
Proof.
  unfold BoundsCheck_call, corrected_row, is_hit, out_of_bounds.
  cbn [fst snd val vec precision count].
  destruct (isMuchSmallerThan dummy_precision cwiseAbs2_sum
              (vec b .- vector_of_row inp) (precision b)
            || hasNaN (vec b) && hasNaN (vector_of_row inp)); cbn; tauto.
Qed.

Lemma hit_ext (b b' : BoundsCheck) (voxel : list T * list T) :
  vec b' = vec b -> precision b' = precision b -> hit b' voxel = hit b voxel.
Proof. intros Hv Hp. unfold is_hit. now rewrite Hv, Hp. Qed.

(** One functor called on a sequence of voxels: each output row depends on
    its own voxel only, not on the voxels seen before (the member [val]
    carries nothing over); the marker and the tolerance never change; and
    the count grows by the number of voxels that met the condition of line
    64, modulo [2^64]. *)
Theorem BoundsCheck_loop_spec (voxels : list (list T * list T)) :
  forall b : BoundsCheck,
  snd (loop b voxels) = map (corrected_row b) voxels
  /\ vec (fst (loop b voxels)) = vec b
  /\ precision (fst (loop b voxels)) = precision b
  /\ size_wrap (count (fst (loop b voxels)))
     = size_wrap (count b + Z.of_nat (length (filter (hit b) voxels)))
  /\ ((0 <= count b < size_modulus)%Z ->
      count (fst (loop b voxels))
      = size_wrap (count b + Z.of_nat (length (filter (hit b) voxels)))).
Proof.
  induction voxels as [|[inp out] rest IH]; intros b.
  - cbn. rewrite Z.add_0_r. repeat split; try reflexivity.
    intros Hc. now rewrite size_wrap_small.
  - cbn [BoundsCheck_loop map filter].
    destruct (call_eq b inp out) as (Hout & Hvec & Hprec & Hcount).
    destruct (call b inp out) as [b1 out1]. cbn [fst snd] in *.
    destruct (IH b1) as (I1 & I2 & I3 & I4 & I5).
    destruct (loop b1 rest) as [b2 outs]. cbn [fst snd] in *.
    assert (Hmap : map (corrected_row b1) rest = map (corrected_row b) rest).
    { apply map_ext. intros v. unfold corrected_row. now rewrite (hit_ext b b1). }
    assert (Hfil : filter (hit b1) rest = filter (hit b) rest).
    { apply filter_ext. intros v. now apply hit_ext. }
    rewrite Hfil in *.
    assert (Hwrap : size_wrap (count b2)
                    = size_wrap (count b + Z.of_nat (length
                        (if hit b (inp, out) then (inp, out) :: filter (hit b) rest
                         else filter (hit b) rest)))).
    { rewrite I4, Hcount. destruct (hit b (inp, out)).
      - unfold size_add. rewrite size_wrap_add_l. cbn [length]. f_equal. lia.
      - reflexivity. }
    split; [rewrite Hout, I1, Hmap; reflexivity|].
    split; [congruence|]. split; [congruence|]. split; [exact Hwrap|].
    intros Hc. rewrite <- Hwrap. symmetry. apply size_wrap_small.
    rewrite I5.
    + unfold size_wrap, size_modulus. apply Z.mod_pos_bound. lia.
    + rewrite Hcount. destruct (hit b (inp, out)); [|exact Hc].
      unfold size_add, size_wrap, size_modulus. apply Z.mod_pos_bound. lia.
Qed.

(** Splitting the voxels between two copies of a freshly constructed
    functor changes neither the output rows nor the total the destructors
    leave in [counter]. *)
Theorem BoundsCheck_loop_split (b : BoundsCheck) (xs ys : list (list T * list T))
    (counter : Z) :
  snd (loop b (xs ++ ys)) = snd (loop b xs) ++ snd (loop b ys)
  /\ (count b = 0%Z ->
      BoundsCheck_delete (fst (loop b ys)) (BoundsCheck_delete (fst (loop b xs)) counter)
      = BoundsCheck_delete (fst (loop b (xs ++ ys))) counter).
Proof.
  destruct (BoundsCheck_loop_spec xs b) as (X1 & _ & _ & X4 & _).
  destruct (BoundsCheck_loop_spec ys b) as (Y1 & _ & _ & Y4 & _).
  destruct (BoundsCheck_loop_spec (xs ++ ys) b) as (A1 & _ & _ & A4 & _).
  split; [rewrite A1, X1, Y1; apply map_app|].
  intros Hzero. rewrite Hzero in *. cbn [Z.add] in *.
  unfold BoundsCheck_delete, size_add.
  rewrite size_wrap_add_l.
  rewrite <- (size_wrap_add_r (counter + count (fst (loop b xs)))), Y4, size_wrap_add_r.
  rewrite <- Z.add_assoc.
  rewrite <- (size_wrap_add_r counter (count (fst (loop b xs)) + _)).
  rewrite <- (size_wrap_add_l (count (fst (loop b xs)))), X4, size_wrap_add_l.
  rewrite <- (size_wrap_add_r counter (count (fst (loop b (xs ++ ys))))), A4.
  rewrite filter_app, length_app, Nat2Z.inj_add. reflexivity.
Qed.

End WarpMore.

(** ** The arc over the real numbers *)

Module RealArc.
Import Real.
Local Open Scope R_scope.

Lemma real_ops (x y : R) :
  s_add x y = x + y /\ s_sub x y = x - y /\ s_mul x y = x * y /\ s_div x y = x / y.
Proof. repeat split. Qed.

Lemma dot_unfold (a b : Point R) :
  dot a b = px a * px b + py a * py b + pz a * pz b.
Proof. reflexivity. Qed.

Lemma norm2_unfold (a : Point R) :
  norm2 a = px a * px a + py a * py a + pz a * pz a.
Proof. reflexivity. Qed.

Lemma cos_theta_real (e d : Point R) :
  dot e d <= 1 -> cos_theta_of e d = dot e d.
Proof.
  intros Hle. unfold cos_theta_of, std_min. cbn [s_ltb scalar]. unfold ltb.
  destruct (Rlt_dec s_one (dot e d)) as [Hlt|]; [|reflexivity].
  change (1 < dot e d) in Hlt. lra.
Qed.

Lemma truthy_real (x : R) : x <> 0 -> truthy x = true.
Proof.
  intros Hx. unfold truthy. cbn [s_eqb scalar]. unfold eqb.
  destruct (Req_dec_T x s_zero) as [Heq|]; [|reflexivity].
  change (x = 0) in Heq. contradiction.
Qed.

Section Frame.
Variables d e : Point R.
Hypothesis Hd : norm2 d = 1.
Hypothesis He : norm2 e = 1.
Hypothesis Hc : -1 < dot e d < 1.

Let c : R := dot e d.
Let m : R := sqrt (1 - c * c).
Let curv : Point R := normalise (psub e (pscale c d)).

Lemma gap_positive : 0 < 1 - c * c.
Proof.
  assert (H : 0 < (1 - c) * (1 + c)) by (apply Rmult_lt_0_compat; subst c; lra).
  lra.
Qed.

Lemma m_positive : 0 < m.
Proof. apply sqrt_lt_R0, gap_positive. Qed.

Lemma m_square : m * m = 1 - c * c.
Proof. apply sqrt_sqrt. pose proof gap_positive. lra. Qed.

Lemma norm2_residual : norm2 (psub e (pscale c d)) = 1 - c * c.
Proof.
  pose proof Hd as Hd'. pose proof He as He'.
  rewrite norm2_unfold in Hd', He' |- *.
  subst c. rewrite dot_unfold. cbn [psub pscale px py pz s_sub s_mul scalar].
  destruct d as [dx dy dz], e as [ex ey ez]. cbn [px py pz] in *.
  set (c0 := ex * dx + ey * dy + ez * dz).
  transitivity ((ex * ex + ey * ey + ez * ez) - 2 * c0 * c0
                + c0 * c0 * (dx * dx + dy * dy + dz * dz)); [unfold c0; ring|].
  rewrite He', Hd'. ring.
Qed.

Lemma norm_residual : norm (psub e (pscale c d)) = m.
Proof. unfold norm. cbn [s_sqrt scalar]. now rewrite norm2_residual. Qed.

Lemma curv_unit : norm2 curv = 1.
Proof.
  pose proof m_positive as Hm. pose proof m_square as Hmm.
  pose proof norm2_residual as Hr. rewrite norm2_unfold in Hr.
  subst curv. unfold normalise. rewrite norm_residual.
  rewrite norm2_unfold. cbn [px py pz s_div scalar].
  set (r := psub e (pscale c d)) in *.
  replace (px r / m * (px r / m) + py r / m * (py r / m) + pz r / m * (pz r / m))
    with ((px r * px r + py r * py r + pz r * pz r) / (m * m)) by (field; lra).
  rewrite Hr, Hmm. field. pose proof gap_positive. lra.
Qed.

Lemma curv_orthogonal : dot d curv = 0.
Proof.
  pose proof m_positive as Hm.
  pose proof Hd as Hd'. rewrite norm2_unfold in Hd'.
  subst curv. unfold normalise. rewrite norm_residual.
  rewrite dot_unfold. cbn [px py pz s_div s_sub s_mul scalar psub pscale].
  replace (px d * ((px e - c * px d) / m) + py d * ((py e - c * py d) / m)
           + pz d * ((pz e - c * pz d) / m))
    with (((px e * px d + py e * py d + pz e * pz d)
           - c * (px d * px d + py d * py d + pz d * pz d)) / m) by (field; lra).
  rewrite Hd'. fold (dot e d) c. unfold c at 1. rewrite dot_unfold. 
  field. lra.
Qed.

(** The end direction is the tangent of the circle at the angle [theta]. *)
Lemma end_dir_decomposition :
  e = padd (pscale c d) (pscale m curv).
Proof.
  pose proof m_positive as Hm.
  subst curv. unfold normalise. rewrite norm_residual.
  destruct d as [dx dy dz], e as [ex ey ez].
  unfold padd, pscale, psub. cbn [px py pz s_add s_sub s_mul s_div scalar].
  f_equal; field; lra.
Qed.
End Frame.

(** A point at the angle [a] of the circle of radius [radius] through [p],
    tangent to [d] there and curving towards [k], for orthonormal [d] and
    [k]. *)
Section Circle.
Variables d k p : Point R.
Variables radius sn cs : R.
Hypothesis Hd : norm2 d = 1.
Hypothesis Hk : norm2 k = 1.
Hypothesis Hdk : dot d k = 0.
Hypothesis Hsc : sn * sn + cs * cs = 1.

Let position : Point R :=
  padd p (pscale radius (padd (pscale sn d) (pscale (1 - cs) k))).
Let centre : Point R := padd p (pscale radius k).
Let tangent : Point R := padd (pscale cs d) (pscale sn k).

Lemma circle_position :
  position = padd centre (pscale radius (psub (pscale sn d) (pscale cs k))).
Proof.
  subst position centre. destruct d, k, p.
  unfold padd, psub, pscale. cbn [px py pz s_add s_sub s_mul scalar].
  f_equal; ring.
Qed.

Lemma circle_radius : norm2 (psub position centre) = radius * radius.
Proof.
  pose proof Hd as Hd'. pose proof Hk as Hk'. pose proof Hdk as Hdk'.
  rewrite norm2_unfold in Hd', Hk'. rewrite dot_unfold in Hdk'.
  subst position centre. rewrite norm2_unfold.
  destruct d as [dx dy dz], k as [kx ky kz], p as [x y z].
  cbn [padd psub pscale px py pz s_add s_sub s_mul scalar] in *.
  transitivity (radius * radius
                * (sn * sn * (dx * dx + dy * dy + dz * dz)
                   - 2 * sn * cs * (dx * kx + dy * ky + dz * kz)
                   + cs * cs * (kx * kx + ky * ky + kz * kz))); [ring|].
  rewrite Hd', Hk', Hdk'. replace (sn * sn * 1 - 2 * sn * cs * 0 + cs * cs * 1)
    with (sn * sn + cs * cs) by ring.
  rewrite Hsc. ring.
Qed.

Lemma circle_tangent_unit : norm2 tangent = 1.
Proof.
  pose proof Hd as Hd'. pose proof Hk as Hk'. pose proof Hdk as Hdk'.
  rewrite norm2_unfold in Hd', Hk'. rewrite dot_unfold in Hdk'.
  subst tangent. rewrite norm2_unfold.
  destruct d as [dx dy dz], k as [kx ky kz].
  cbn [padd pscale px py pz s_add s_mul scalar] in *.
  transitivity (cs * cs * (dx * dx + dy * dy + dz * dz)
                + 2 * sn * cs * (dx * kx + dy * ky + dz * kz)
                + sn * sn * (kx * kx + ky * ky + kz * kz)); [ring|].
  rewrite Hd', Hk', Hdk'. lra.
Qed.

Lemma circle_tangent_orthogonal : dot tangent (psub position centre) = 0.
Proof.
  pose proof Hd as Hd'. pose proof Hk as Hk'. pose proof Hdk as Hdk'.
  rewrite norm2_unfold in Hd', Hk'. rewrite dot_unfold in Hdk'.
  subst tangent position centre. rewrite dot_unfold.
  destruct d as [dx dy dz], k as [kx ky kz], p as [x y z].
  cbn [padd psub pscale px py pz s_add s_sub s_mul scalar] in *.
  transitivity (radius
                * (sn * cs * (dx * dx + dy * dy + dz * dz)
                   + (sn * sn - cs * cs) * (dx * kx + dy * ky + dz * kz)
                   - sn * cs * (kx * kx + ky * ky + kz * kz))); [ring|].
  rewrite Hd', Hk', Hdk'. ring.
Qed.
End Circle.

(** In exact arithmetic the samples of the curved case lie on the circle of
    radius [step_size / theta] that passes through [pos] with the tangent
    [dir]: sample [i] is the point at the arc angle [theta * (i+1) /
    num_samples] from [pos], its tangent the unit tangent of the circle
    there, and the tangent of the last sample is the end direction. *)
Theorem arc_lies_on_circle (n : Z) (step : R) (p d e : Point R) (i : Z) :
  (1 <= n < size_modulus)%Z ->
  norm2 d = 1 -> norm2 e = 1 -> -1 < dot e d < 1 ->
  (0 <= i < n)%Z ->
  let theta := Ratan.acos (dot e d) in
  let radius := step / theta in
  let curv := normalise (psub e (pscale (dot e d) d)) in
  let centre := padd p (pscale radius curv) in
  let a := theta * IZR (i + 1) / IZR n in
  exists position tangent : Point R,
    nth_error (arc Ratan.acos Rtrigo_def.sin Rtrigo_def.cos n step p d e) (Z.to_nat i)
    = Some (position, tangent)
    /\ position
       = padd centre (pscale radius (psub (pscale (Rtrigo_def.sin a) d)
                                          (pscale (Rtrigo_def.cos a) curv)))
    /\ tangent = padd (pscale (Rtrigo_def.cos a) d) (pscale (Rtrigo_def.sin a) curv)
    /\ norm2 (psub position centre) = radius * radius
    /\ norm2 tangent = 1
    /\ dot tangent (psub position centre) = 0
    /\ (i = (n - 1)%Z -> tangent = e).
Proof.
  intros Hn Hd He Hc Hi theta radius curv centre a.
  assert (Hth : 0 < theta < PI) by (apply acos_bound_lt; exact Hc).
  assert (Hcos : Rtrigo_def.cos theta = dot e d) by (apply cos_acos; lra).
  assert (Hsin : Rtrigo_def.sin theta = sqrt (1 - dot e d * dot e d))
    by (unfold theta; rewrite sin_acos by lra; reflexivity).
  assert (Hct : cos_theta_of e d = dot e d) by (apply cos_theta_real; lra).
  assert (Htr : truthy (Ratan.acos (cos_theta_of e d)) = true)
    by (rewrite Hct; apply truthy_real; fold theta; lra).
  assert (Hk : norm2 curv = 1) by (apply curv_unit; assumption).
  assert (Hdk : dot d curv = 0) by (apply curv_orthogonal; assumption).
  assert (Hsc : forall x, Rtrigo_def.sin x * Rtrigo_def.sin x
                          + Rtrigo_def.cos x * Rtrigo_def.cos x = 1)
    by (intros x; apply sin2_cos2).
  destruct (Z.eq_dec i (n - 1)) as [Hlast|Hmid].
  - assert (Ha : a = theta).
    { unfold a. rewrite Hlast. replace (n - 1 + 1)%Z with n by lia.
      field. apply not_0_IZR. lia. }
    rewrite Ha. subst i.
    exists (padd p (pscale radius
              (padd (pscale (Rtrigo_def.sin theta) d)
                    (pscale (1 - Rtrigo_def.cos theta) curv)))), e.
    assert (Hdec : e = padd (pscale (Rtrigo_def.cos theta) d)
                            (pscale (Rtrigo_def.sin theta) curv)).
    { rewrite Hcos, Hsin. apply end_dir_decomposition; assumption. }
    split.
    { rewrite arc_curved_last by assumption. rewrite Hct. fold theta.
      rewrite Hcos. reflexivity. }
    split; [apply circle_position; auto|].
    split; [exact Hdec|].
    split; [apply circle_radius; auto|].
    split; [rewrite Hdec; apply circle_tangent_unit; auto|].
    split; [|reflexivity].
    rewrite Hdec at 1. apply circle_tangent_orthogonal; auto.
  - exists (padd p (pscale radius
              (padd (pscale (Rtrigo_def.sin a) d)
                    (pscale (1 - Rtrigo_def.cos a) curv)))),
           (padd (pscale (Rtrigo_def.cos a) d) (pscale (Rtrigo_def.sin a) curv)).
    split.
    { rewrite arc_curved_nth by (assumption || lia). rewrite Hct. reflexivity. }
    split; [apply circle_position; auto|].
    split; [reflexivity|].
    split; [apply circle_radius; auto|].
    split; [apply circle_tangent_unit; auto|].
    split; [apply circle_tangent_orthogonal; auto|].
    intros Hi'. contradiction.
Qed.
(** The quarter turn from the x axis to the y axis in one sample. *)
Lemma arc_lies_on_circle_witness :
  exists position tangent : Point R,
    nth_error (arc Ratan.acos Rtrigo_def.sin Rtrigo_def.cos 1 1%R
                 (mkPoint 0 0 0) (mkPoint 1 0 0) (mkPoint 0 1 0))%R 0
    = Some (position, tangent)
    /\ tangent = mkPoint 0%R 1%R 0%R
    /\ norm2 tangent = 1%R.
Proof.
  assert (Hn : (1 <= 1 < size_modulus)%Z) by (split; [lia | reflexivity]).
  assert (Hd : norm2 (mkPoint 1 0 0)%R = 1%R)
    by (rewrite norm2_unfold; cbn [px py pz]; lra).
  assert (He : norm2 (mkPoint 0 1 0)%R = 1%R)
    by (rewrite norm2_unfold; cbn [px py pz]; lra).
  assert (Hc : (-1 < dot (mkPoint 0 1 0) (mkPoint 1 0 0) < 1)%R)
    by (rewrite dot_unfold; cbn [px py pz]; lra).
  assert (Hi : (0 <= 0 < 1)%Z) by lia.
  destruct (arc_lies_on_circle 1%R (mkPoint 0 0 0)%R Hn Hd He Hc Hi)
    as (position & tangent & Hnth & _ & _ & _ & Hunit & _ & Hlast).
  exists position, tangent.
  split; [exact Hnth|]. split; [apply Hlast; reflexivity | exact Hunit].
Defined.

End RealArc.

(** ** The properties on the concrete worlds *)

Module Examples.
Import F32 Demo.
Local Open Scope scalar_scope.

(** With one sample per step and a candidate direction equal to the
    current one, [get_path] stores at the indices 0 and 1 of arrays of one
    element. *)
Lemma get_path_straight_example :
  fst (get_path one_sample straight_start)
  = [(point_of_Z 1 0 0, x_axis); (point_of_Z 2 0 0, x_axis)].
Proof. vm_compute. reflexivity. Qed.

Lemma get_path_straight_overruns_witness :
  length (fst (get_path one_sample straight_start)) = 2%nat
  /\ ~ stores_in_bounds 1 (fst (get_path one_sample straight_start)).
Proof.
  assert (Hn : (0 <= num_samples one_sample)%Z) by (vm_compute; discriminate).
  assert (Ht : truthy (theta_of one_sample straight_start) = false)
    by (vm_compute; reflexivity).
  destruct (get_path_straight_overruns one_sample straight_start Hn Ht)
    as (Hlen & _ & Hout).
  split; [exact Hlen | exact Hout].
Defined.

(** C2 as stated fails.  In a field of amplitude 0.8 everywhere, with the
    amplitude threshold 1 and the initialisation threshold 0.1, [init]
    seeds the streamline with [prev_prob_val = 0.8]; every candidate path
    of the next step is rejected, so [max_val_actual = 0].  The scaled
    maximum [0.8 * 1.5 = 1.2] is finite and not below [prob_threshold = 1],
    yet [next] returns false after the 100 evaluations of the probe,
    without any of the 100 trials its budget allows. *)
Lemma next_check_is_before_scaling :
  fst (init high_threshold low_start) = true
  /\ prev_prob_val low_seeded = c0_8
  /\ path_evals low_seeded = 0%nat
  /\ fst (next high_threshold low_seeded) = false
  /\ path_evals (snd (next high_threshold low_seeded)) = 100%nat
  /\ trial_budget high_threshold (max_val_actual_of high_threshold low_seeded) = 100%Z
  /\ s_finite (MAX low_world (prev_prob_val low_seeded)
                 (max_val_actual_of high_threshold low_seeded) * s_1_5) = true
  /\ (MAX low_world (prev_prob_val low_seeded)
        (max_val_actual_of high_threshold low_seeded) * s_1_5
      <? prob_threshold high_threshold) = false.
Proof. vm_compute. repeat split. Qed.

(** C3 as stated fails: on the same input [next] returns false at the
    check, and [prev_prob_val], 0.8 before the call, is 0 after it. *)
Lemma next_overwrites_prev_prob_val_on_failure :
  fst (next high_threshold low_seeded) = false
  /\ prev_prob_val low_seeded = c0_8
  /\ prev_prob_val (snd (next high_threshold low_seeded)) = of_Z 0
  /\ prev_prob_val (snd (next high_threshold low_seeded)) <> prev_prob_val low_seeded.
Proof. vm_compute. repeat split. discriminate. Qed.

(** C4 as stated fails: for the unit vector [normalise (2, 5, 7)] and its
    opposite the dot product is [-(1 + 2^-23)] in binary32, and [cos_theta]
    is that value, below -1. *)
Lemma cos_theta_below_minus_one :
  cos_theta_of skew_opposite skew_dir = S754_finite true 8388609 (-23)
  /\ (cos_theta_of skew_opposite skew_dir <? of_Z (-1)) = true.
Proof. vm_compute. split; reflexivity. Qed.

(** C6 as stated fails: along a curved path of three samples with the
    amplitudes [2^100], [2^100] and [0] and the amplitude threshold 0, no
    amplitude is NaN or below the threshold, and [rand_path_prob] returns
    NaN: the product overflows to infinity and is then multiplied by 0. *)
Lemma rand_path_prob_nan_without_rejected_sample :
  truthy (theta_of zero_threshold step_start) = true
  /\ length (fst (get_path zero_threshold step_start)) = 3%nat
  /\ path_amps step_world zero_threshold (values step_start)
    (firstn 3 (fst (get_path zero_threshold step_start)))
  = [huge; huge; of_Z 0]
  /\ existsb (rejected zero_threshold) [huge; huge; of_Z 0] = false
  /\ s_isnan (fst (fst (fst (rand_path_prob zero_threshold
                               Point_invalid Point_invalid step_start)))) = true.
Proof. vm_compute. repeat split. Qed.

Lemma next_accepts_only_above_threshold_witness :
  exists (np0 nd0 : Point f32) (s1 : State flat_world),
    pos s1 = pos flat_start /\ dir s1 = dir flat_start
    /\ (prob_threshold one_sample
        <? fst (fst (fst (rand_path_prob one_sample np0 nd0 s1)))) = true
    /\ s_isnan (fst (fst (fst (rand_path_prob one_sample np0 nd0 s1)))) = false
    /\ pos (snd (next one_sample flat_start))
       = snd (fst (fst (rand_path_prob one_sample np0 nd0 s1)))
    /\ dir (snd (next one_sample flat_start))
       = normalise (snd (fst (rand_path_prob one_sample np0 nd0 s1))).
Proof.
  assert (Hfst : fst (next one_sample flat_start) = true) by (vm_compute; reflexivity).
  pose proof (surjective_pairing (next one_sample flat_start)) as Hrun.
  rewrite Hfst in Hrun.
  exact (next_accepts_only_above_threshold one_sample flat_start Hrun).
Defined.

Lemma rand_path_prob_nan_or_product_witness :
  fst (rand_path_prob two_samples Point_invalid Point_invalid flat_start)
  = (of_Z 1 * of_Z 1 * of_Z 1,
     mkPoint (S754_finite false 15643066 (-24)) (S754_finite false 10428710 (-25)) (of_Z 0),
     mkPoint c0_8 c0_6 (of_Z 0)).
Proof.
  assert (Hn : (1 <= num_samples two_samples < size_modulus)%Z)
    by (vm_compute; split; [discriminate | reflexivity]).
  assert (Ht : truthy (theta_of two_samples flat_start) = true)
    by (vm_compute; reflexivity).
  pose proof (rand_path_prob_nan_or_product two_samples
                Point_invalid Point_invalid flat_start Hn Ht) as Hw.
  cbv zeta in Hw. destruct Hw as (_ & _ & Hprod).
  destruct (Hprod ltac:(vm_compute; reflexivity)) as (final & Hfinal & Hres).
  rewrite Hres. vm_compute in Hfinal. injection Hfinal as <-. vm_compute. reflexivity.
Defined.

Lemma init_fixed_direction_witness :
  fst (init one_sample flat_start) = true
  /\ dir (snd (init one_sample flat_start)) = x_axis
  /\ prev_prob_val (snd (init one_sample flat_start)) = of_Z 1
  /\ rng (snd (init one_sample flat_start)) = rng flat_start.
Proof.
  assert (Hd : point_not (init_dir one_sample) = false) by (vm_compute; reflexivity).
  destruct (init_fixed_direction one_sample flat_start Hd)
    as (Hres & Hok & _ & Hrng & _).
  assert (Htrue : fst (init one_sample flat_start) = true)
    by (rewrite Hres; vm_compute; reflexivity).
  destruct (Hok Htrue) as (Hdir & Hprev).
  split; [exact Htrue|]. split; [exact Hdir|]. split; [|exact Hrng].
  rewrite Hprev. vm_compute. reflexivity.
Defined.

Lemma get_path_curved_arc_witness :
  length (fst (get_path two_samples flat_start)) = 2%nat
  /\ stores_in_bounds 2 (fst (get_path two_samples flat_start))
  /\ option_map snd (nth_error (fst (get_path two_samples flat_start)) 1)
     = Some (mkPoint c0_8 c0_6 (of_Z 0)).
Proof.
  assert (Hn : (1 <= num_samples two_samples < size_modulus)%Z)
    by (vm_compute; split; [discriminate | reflexivity]).
  pose proof (get_path_curved_arc two_samples flat_start Hn) as Hw.
  cbv zeta in Hw.
  destruct (Hw ltac:(vm_compute; reflexivity)) as (Hlen & Hin & Hlast & _).
  split; [exact Hlen|]. split; [exact Hin|].
  change (Z.to_nat (num_samples two_samples - 1)) with 1%nat in Hlast.
  rewrite Hlast. vm_compute. reflexivity.
Defined.

(** C9 as stated fails.  When the drawn end direction is the opposite of
    the current direction [normalise (2, 5, 7)], [cos_theta] is
    [-(1 + 2^-23)] and [theta = acos (cos_theta)] is NaN, which is not zero:
    this is the curved case, and every position stored is NaN in its three
    components, as is the tangent of the first sample.  They lie on no
    circle. *)
Lemma get_path_curved_arc_of_nan :
  (cos_theta_of (end_dir_of two_samples skew_start) (dir skew_start) <? of_Z (-1)) = true
  /\ s_isnan (theta_of two_samples skew_start) = true
  /\ truthy (theta_of two_samples skew_start) = true
  /\ fst (get_path two_samples skew_start)
     = [(Point_invalid, Point_invalid); (Point_invalid, skew_opposite)].
Proof. vm_compute. repeat split. Qed.

Lemma BoundsCheck_call_spec_witness :
  snd (BoundsCheck_call c1e_5 sum_of_squares default_check
         [of_Z 0; of_Z 0; of_Z 0] [of_Z 5; of_Z 5; of_Z 5])
  = [S754_nan; S754_nan; S754_nan]
  /\ count (fst (BoundsCheck_call c1e_5 sum_of_squares default_check
                   [of_Z 0; of_Z 0; of_Z 0] [of_Z 5; of_Z 5; of_Z 5])) = 1%Z.
Proof.
  destruct (BoundsCheck_call_spec c1e_5 sum_of_squares default_check
              [of_Z 0; of_Z 0; of_Z 0] [of_Z 5; of_Z 5; of_Z 5] eq_refl eq_refl)
    as ((Hhit & _) & _).
  exact (Hhit ltac:(vm_compute; reflexivity)).
Defined.

(** In the field of amplitude 0.8 with the amplitude threshold 1 and two
    samples per step, the first sample is rejected and the second never
    fetched. *)
Lemma rand_path_prob_stops_at_first_rejected_witness :
  data_fetches (snd (rand_path_prob two_high Point_invalid Point_invalid low_start))
  = 1%nat.
Proof.
  assert (Hn : (1 <= num_samples two_high < size_modulus)%Z)
    by (vm_compute; split; [discriminate | reflexivity]).
  assert (Ht : truthy (theta_of two_high low_start) = true)
    by (vm_compute; reflexivity).
  pose proof (rand_path_prob_stops_at_first_rejected two_high
                Point_invalid Point_invalid low_start Hn Ht) as Hw.
  cbv zeta in Hw. destruct Hw as (_ & Hdf & _).
  rewrite Hdf. vm_compute. reflexivity.
Defined.

Lemma next_max_val_never_nan_witness :
  s_isnan (prev_prob_val nan_seeded) = true
  /\ s_isnan (prev_prob_val (snd (next one_sample nan_seeded))) = false.
Proof.
  split; [reflexivity|].
  assert (Hzero : s_isnan (s_zero (T := f32)) = false) by (vm_compute; reflexivity).
  assert (Hmax : forall a b : f32, MAX flat_world a b = if b <? a then a else b)
    by (intros a b; reflexivity).
  destruct (next_max_val_never_nan one_sample nan_seeded Hzero Hmax)
    as (_ & Hprev & _).
  exact Hprev.
Defined.

Lemma next_without_data_witness :
  fst (next one_sample empty_start) = false
  /\ prev_prob_val (snd (next one_sample empty_start)) = of_Z 0.
Proof.
  assert (Hn : (1 <= num_samples one_sample)%Z) by (vm_compute; discriminate).
  assert (Hnone : forall p : Point f32, fst (get_data_at empty_world p) = false)
    by (intros p; reflexivity).
  destruct (next_without_data one_sample empty_start Hnone Hn)
    as (Hres & Hprev & _).
  split; [exact Hres | exact Hprev].
Defined.

Lemma init_without_data_witness :
  fst (init one_sample empty_start) = false
  /\ rng (snd (init one_sample empty_start)) = 0%Z.
Proof.
  assert (Hnone : fst (get_data_at empty_world (pos empty_start)) = false)
    by reflexivity.
  destruct (init_without_data one_sample empty_start Hnone) as (Hres & Hrng & _).
  split; [exact Hres | exact Hrng].
Defined.

(** With no initial direction, the first direction drawn in the flat field
    is accepted: the draws are -2, -1 and 0 in that order, and the
    arguments are evaluated from right to left. *)
Lemma init_random_direction_witness :
  fst (init random_seed flat_start) = true
  /\ dir (snd (init random_seed flat_start)) = normalise (point_of_Z 0 (-1) (-2)).
Proof.
  assert (Hd : point_not (init_dir random_seed) = true) by (vm_compute; reflexivity).
  assert (Hdata : fst (get_data_at flat_world (pos flat_start)) = true)
    by reflexivity.
  pose proof (init_random_direction random_seed flat_start Hd Hdata) as Hw.
  cbv zeta in Hw. destruct Hw as (Hres & Hfound & _).
  split; [rewrite Hres; vm_compute; reflexivity|].
  assert (Hfind :
    find (fun d => init_threshold random_seed
                   <? series flat_world random_seed (seed_values flat_start) d)
         (seed_draws flat_world (Z.to_nat (max_trials random_seed)) (rng flat_start))
    = Some (normalise (point_of_Z 0 (-1) (-2)))) by (vm_compute; reflexivity).
  destruct (Hfound _ Hfind) as (Hdir & _).
  exact Hdir.
Defined.

(** Two calls of [next] where there is no data: neither returns true, and
    the destructor reports NaN. *)
Lemma next_calls_counters_witness :
  fst (next_calls one_sample 2 (iFOD2_new empty_start)) = 0%nat
  /\ s_isnan (iFOD2_delete (snd (next_calls one_sample 2 (iFOD2_new empty_start))))
     = true.
Proof.
  assert (Hk : (Z.of_nat 2 * Z.max 10000 (max_trials one_sample) < size_modulus)%Z)
    by (vm_compute; reflexivity).
  pose proof (next_calls_counters one_sample 2 empty_start Hk) as Hw.
  cbv zeta in Hw. destruct Hw as (_ & _ & _ & Hreport).
  assert (Hnone : fst (next_calls one_sample 2 (iFOD2_new empty_start)) = 0%nat)
    by (vm_compute; reflexivity).
  split; [exact Hnone|]. rewrite (Hreport Hnone). vm_compute. reflexivity.
Defined.

End Examples.
